(** * psiphon-tunnel-core: connection substrate and service supervisor

    A shallow embedding of the parts of [psiphon/net.go] and
    [psiphon/server/services.go] that carry the connection-lifecycle
    contracts: the [Conns] registry, [LRUConns], [ActivityMonitoredConn],
    [ThrottledConn], [ResumeDownload] and [RunServices].

    Go values are modelled as follows.
    - [int64]/[int32] fields are [Z]; [atomic.AddInt64] wraps modulo 2^64.
    - [net.Conn] handles are numbers; a nil interface is [None].
    - [map[net.Conn]bool] is a [gmap]; a nil map is [None].
    - Functions that panic return [Panicked]; functions that return an
      [error] return [option error], with [None] for [nil].
    - Go routines are program counters in a scheduler state; a run is a
      list of scheduling decisions. *)

From stdpp Require Import gmap strings list pretty.

(** ** Machine integers *)

Module Int64.

Local Open Scope Z_scope.

Definition min_int : Z := - 2 ^ 63.
Definition max_int : Z := 2 ^ 63 - 1.

Definition in_range (z : Z) : Prop := min_int <= z <= max_int.

(** Two's complement wrap-around of an [int64] result. *)
Definition wrap (z : Z) : Z := (z + 2 ^ 63) mod 2 ^ 64 - 2 ^ 63.

(** [atomic.AddInt64(&x, delta)]: the new value, which is also stored. *)
Definition AddInt64 (x delta : Z) : Z := wrap (x + delta).

End Int64.

(** ** ThrottledConn (net.go, 834-915) *)

Module Throttle.

Import Int64.
Local Open Scope Z_scope.

(** What an [io.Reader]/[io.Writer] held by a [ThrottledConn] is: the
    wrapped [net.Conn] itself, or [ratelimit.Reader]/[ratelimit.Writer]
    around it with a token bucket of the given rate. *)
Inductive Stream : Type :=
  | Raw
  | RateLimited (bytesPerSecond : Z).

Global Instance Stream_eq_dec : EqDecision Stream.
Proof. solve_decision. Defined.

Record ThrottledConn : Type := mkThrottledConn {
  unlimitedReadBytes  : Z;
  limitingReads       : Z;
  limitedReader       : Stream;
  unlimitedWriteBytes : Z;
  limitingWrites      : Z;
  limitedWriter       : Stream
}.

Definition NewThrottledConn
    (unlimitedReadBytes limitReadBytesPerSecond
     unlimitedWriteBytes limitWriteBytesPerSecond : Z) : ThrottledConn :=
  let reader :=
    if limitReadBytesPerSecond =? 0 then Raw
    else RateLimited limitReadBytesPerSecond in
  let writer :=
    if limitWriteBytesPerSecond =? 0 then Raw
    else RateLimited limitWriteBytesPerSecond in
  {| unlimitedReadBytes  := unlimitedReadBytes;
     limitingReads       := 0;
     limitedReader       := reader;
     unlimitedWriteBytes := unlimitedWriteBytes;
     limitingWrites      := 0;
     limitedWriter       := writer |}.

Definition set_unlimitedReadBytes (v : Z) (c : ThrottledConn) :=
  mkThrottledConn v (limitingReads c) (limitedReader c)
    (unlimitedWriteBytes c) (limitingWrites c) (limitedWriter c).

Definition set_limitingReads (v : Z) (c : ThrottledConn) :=
  mkThrottledConn (unlimitedReadBytes c) v (limitedReader c)
    (unlimitedWriteBytes c) (limitingWrites c) (limitedWriter c).

Definition set_unlimitedWriteBytes (v : Z) (c : ThrottledConn) :=
  mkThrottledConn (unlimitedReadBytes c) (limitingReads c) (limitedReader c)
    v (limitingWrites c) (limitedWriter c).

Definition set_limitingWrites (v : Z) (c : ThrottledConn) :=
  mkThrottledConn (unlimitedReadBytes c) (limitingReads c) (limitedReader c)
    (unlimitedWriteBytes c) v (limitedWriter c).

(** What one call did: the stream whose [Read]/[Write] it ended in (the
    call returns that stream's result), and the values returned by its
    successive [atomic.AddInt64] on the unmetered counter, oldest first. *)
Record Outcome : Type := mkOutcome {
  via  : Stream;
  adds : list Z
}.

(** [ThrottledConn.Read(buffer)] with [len = len(buffer)].  The source
    calls itself, [conn.Read(buffer)], in the else branch; [fuel] bounds
    the depth of that recursion and [None] means it was not enough. *)
Fixpoint Read (fuel : nat) (conn : ThrottledConn) (len : Z)
    : option (ThrottledConn * Outcome) :=
  match fuel with
  | O => None
  | S fuel' =>
    if limitingReads conn =? 0 then
      let n := AddInt64 (unlimitedReadBytes conn) (- len) in
      let conn := set_unlimitedReadBytes n conn in
      if n <=? 0 then
        let conn := set_limitingReads 1 conn in
        Some (conn, mkOutcome (limitedReader conn) [n])
      else
        match Read fuel' conn len with
        | Some (conn', o) => Some (conn', mkOutcome (via o) (n :: adds o))
        | None => None
        end
    else
      Some (conn, mkOutcome (limitedReader conn) [])
  end.

(** [ThrottledConn.Write(buffer)], the mirror image of [Read]. *)
Fixpoint Write (fuel : nat) (conn : ThrottledConn) (len : Z)
    : option (ThrottledConn * Outcome) :=
  match fuel with
  | O => None
  | S fuel' =>
    if limitingWrites conn =? 0 then
      let n := AddInt64 (unlimitedWriteBytes conn) (- len) in
      let conn := set_unlimitedWriteBytes n conn in
      if n <=? 0 then
        let conn := set_limitingWrites 1 conn in
        Some (conn, mkOutcome (limitedWriter conn) [n])
      else
        match Write fuel' conn len with
        | Some (conn', o) => Some (conn', mkOutcome (via o) (n :: adds o))
        | None => None
        end
    else
      Some (conn, mkOutcome (limitedWriter conn) [])
  end.

(** The two directions of a connection, and the per-direction view of the
    fields and of the configured rates. *)
Inductive Dir : Type := Reads | Writes.

Global Instance Dir_eq_dec : EqDecision Dir.
Proof. solve_decision. Defined.

Definition unlimited (d : Dir) (c : ThrottledConn) : Z :=
  match d with
  | Reads => unlimitedReadBytes c
  | Writes => unlimitedWriteBytes c
  end.

Definition limiting (d : Dir) (c : ThrottledConn) : Z :=
  match d with
  | Reads => limitingReads c
  | Writes => limitingWrites c
  end.

Definition limited (d : Dir) (c : ThrottledConn) : Stream :=
  match d with
  | Reads => limitedReader c
  | Writes => limitedWriter c
  end.

(** [Read] or [Write], by direction. *)
Definition Call (d : Dir) (fuel : nat) (conn : ThrottledConn) (len : Z)
    : option (ThrottledConn * Outcome) :=
  match d with
  | Reads => Read fuel conn len
  | Writes => Write fuel conn len
  end.

(** A call in direction [d] with a buffer of [len] bytes that returned,
    and a sequence of such calls on one connection. *)
Inductive call : ThrottledConn -> Dir * Z -> ThrottledConn -> Outcome -> Prop :=
  | call_returns d fuel conn len conn' o :
      Call d fuel conn len = Some (conn', o) ->
      call conn (d, len) conn' o.

Inductive calls : ThrottledConn -> list (Dir * Z * Outcome) -> ThrottledConn -> Prop :=
  | calls_nil conn : calls conn [] conn
  | calls_cons conn op conn1 o tr conn2 :
      call conn op conn1 o ->
      calls conn1 tr conn2 ->
      calls conn ((op, o) :: tr) conn2.

(** The budget of scenario S3: 1000 unmetered bytes, 100 bytes/s, both
    directions. *)
Definition conn_1000_100 : ThrottledConn := NewThrottledConn 1000 100 1000 100.

(** The same connection with 200 unmetered bytes left to read. *)
Definition conn_200_100 : ThrottledConn := NewThrottledConn 200 100 1000 100.

Definition other (d : Dir) : Dir :=
  match d with
  | Reads => Writes
  | Writes => Reads
  end.

(** Successive counter values of one call: each retry found the value
    left by the previous subtraction and took [len] more from it. *)
Fixpoint retries_decrease (len : Z) (l : list Z) : Prop :=
  match l with
  | a :: (b :: _) as tl => 0 < a /\ b = a - len /\ b < a /\ retries_decrease len tl
  | _ => True
  end.

(** The connection after a call in direction [d] that set the flag, and
    after one that only charged the counter. *)
Definition tripped (d : Dir) (n : Z) (conn : ThrottledConn) : ThrottledConn :=
  match d with
  | Reads => set_limitingReads 1 (set_unlimitedReadBytes n conn)
  | Writes => set_limitingWrites 1 (set_unlimitedWriteBytes n conn)
  end.

Definition charged (d : Dir) (n : Z) (conn : ThrottledConn) : ThrottledConn :=
  match d with
  | Reads => set_unlimitedReadBytes n conn
  | Writes => set_unlimitedWriteBytes n conn
  end.

Definition rateOf (d : Dir) (limitRead limitWrite : Z) : Z :=
  match d with
  | Reads => limitRead
  | Writes => limitWrite
  end.

Definition streamFor (rate : Z) : Stream :=
  if rate =? 0 then Raw else RateLimited rate.

Definition conn_tripped : ThrottledConn :=
  mkThrottledConn (-200) 1 (RateLimited 100) 1000 0 (RateLimited 100).

Definition trace_trip : list (Dir * Z * Outcome) :=
  [(Reads, 400, mkOutcome (RateLimited 100) [600; 200; -200])].


End Throttle.

(** ** Results of Go calls *)

Module Go.

(** A Go call either returns or panics. *)
Inductive Result (A : Type) : Type :=
  | Returned (a : A)
  | Panicked (msg : string).
Arguments Returned {A} a.
Arguments Panicked {A} msg.

Definition bind {A B} (m : Result A) (k : A -> Result B) : Result B :=
  match m with
  | Returned a => k a
  | Panicked msg => Panicked msg
  end.

(** [p.f] for a pointer [p]: a nil pointer cannot be dereferenced. *)
Definition deref {A} (p : option A) : Result A :=
  match p with
  | Some a => Returned a
  | None => Panicked "runtime error: invalid memory address or nil pointer dereference"
  end.

(** A [net.Conn] handle, by identity. *)
Definition Conn : Type := positive.

End Go.

Global Instance Result_bind : MBind Go.Result := fun A B k m => Go.bind m k.

(** ** Conns (net.go, 183-228) *)

Module Registry.

Import Go.

(** [conns] is [None] for the nil map of a zero-value [Conns].  Every
    method holds [mutex] for its whole body, so a method is one atomic
    transition of the record. *)
Record Conns : Type := mkConns {
  isClosed : bool;
  conns : option (gmap Conn bool)
}.

(** The zero value, [new(Conns)]. *)
Definition zero : Conns := mkConns false None.

Definition Reset (c : Conns) : Conns :=
  mkConns false (Some ∅).

Definition Add (conn : Conn) (c : Conns) : Conns * bool :=
  if isClosed c then (c, false)
  else
    let m := match conns c with
             | None => ∅
             | Some m => m
             end in
    (mkConns (isClosed c) (Some (<[conn := true]> m)), true).

(** [delete] on a nil map does nothing. *)
Definition Remove (conn : Conn) (c : Conns) : Conns :=
  mkConns (isClosed c) (delete conn <$> conns c).

(** The keys a [range] over the map visits; Go leaves the order open,
    here it is the one of [map_to_list]. *)
Definition range_keys (m : option (gmap Conn bool)) : list Conn :=
  match m with
  | None => []
  | Some m => (map_to_list m).*1
  end.

(** [CloseAll] returns the new record and the handles on which it invoked
    [Close], in call order. *)
Definition CloseAll (c : Conns) : Conns * list Conn :=
  let closes := range_keys (conns c) in
  (mkConns true (Some ∅), closes).

(** The handles currently in the mapping. *)
Definition registered (c : Conns) : gset Conn :=
  match conns c with
  | None => ∅
  | Some m => dom m
  end.

Inductive Op : Type :=
  | OpReset
  | OpAdd (conn : Conn)
  | OpRemove (conn : Conn)
  | OpCloseAll.

Global Instance Op_eq_dec : EqDecision Op.
Proof. solve_decision. Defined.

(** What a caller or a connection observes of one operation. *)
Inductive Obs : Type :=
  | AddReturned (conn : Conn) (ok : bool)
  | CloseInvoked (conn : Conn).

Definition apply (op : Op) (c : Conns) : Conns * list Obs :=
  match op with
  | OpReset => (Reset c, [])
  | OpAdd conn => let '(c', ok) := Add conn c in (c', [AddReturned conn ok])
  | OpRemove conn => (Remove conn c, [])
  | OpCloseAll => let '(c', cl) := CloseAll c in (c', CloseInvoked <$> cl)
  end.

(** Any interleaving of callers is, by the mutex, a sequence of operations. *)
Fixpoint run (ops : list Op) (c : Conns) : Conns * list Obs :=
  match ops with
  | [] => (c, [])
  | op :: ops' =>
    let '(c1, o1) := apply op c in
    let '(c2, o2) := run ops' c1 in
    (c2, o1 ++ o2)
  end.

(** A registry holding connections 1 and 2, and operations tried on it
    once it has been closed. *)
Definition registry_12 : Conns := (Add 2%positive (Add 1%positive zero).1).1.

Definition ops_after_close : list Op :=
  [OpAdd 3%positive; OpRemove 1%positive; OpCloseAll; OpAdd 4%positive].

End Registry.

(** ** LRUConns and LRUConnsEntry (net.go, 230-314) *)

Module LRU.

Import Go.

(** A [*list.Element] of [container/list]: its identity and its [Value],
    an [interface{}] that holds the [net.Conn] given to [Add] ([None] when
    that was a nil interface).  An element removed from its list is no
    longer in [elems]. *)
Record Element : Type := mkElement {
  elemId : nat;
  Value : option Conn
}.

(** [LRUConns.list], front (freshest) first; [nextId] names the next
    element allocated by [PushFront]. *)
Record LRUConns : Type := mkLRUConns {
  elems : list Element;
  nextId : nat
}.

(** [lruConns] and [element] are pointers and may be nil. *)
Record LRUConnsEntry : Type := mkLRUConnsEntry {
  lruConns : option nat;
  element : option nat
}.

(** The [LRUConns] objects alive, by address. *)
Abbreviation Heap := (gmap nat LRUConns).

Definition NewLRUConns : LRUConns := mkLRUConns [] 0.

(** [list.Back()]: nil when the list is empty. *)
Definition Back (l : LRUConns) : option Element := last (elems l).

(** [list.Remove(e)]: detaches [e] when it is an element of this list. *)
Definition ListRemove (e : nat) (l : LRUConns) : LRUConns :=
  mkLRUConns (filter (fun x => elemId x ≠ e) (elems l)) (nextId l).

(** [list.MoveToFront(e)]: nothing when [e] is not an element of this list. *)
Definition MoveToFront (e : nat) (l : LRUConns) : LRUConns :=
  match List.find (fun x => Nat.eqb (elemId x) e) (elems l) with
  | Some x => mkLRUConns (x :: filter (fun y => elemId y ≠ e) (elems l)) (nextId l)
  | None => l
  end.

(** [conns.Add(conn)] for the [LRUConns] at address [self]. *)
Definition Add (self : nat) (conn : option Conn) (l : LRUConns)
    : LRUConns * LRUConnsEntry :=
  let e := mkElement (nextId l) conn in
  (mkLRUConns (e :: elems l) (S (nextId l)),
   mkLRUConnsEntry (Some self) (Some (elemId e))).

(** [oldest.Value.(net.Conn)] in its two-result form. *)
Definition assertConn (v : option Conn) : option Conn * bool :=
  match v with
  | Some c => (Some c, true)
  | None => (None, false)
  end.

(** [CloseOldest]: the source reads [oldest.Value] before it tests
    [oldest != nil].  Returns the list and the handles on which [Close]
    was invoked. *)
Definition CloseOldest (l : LRUConns) : Result (LRUConns * list Conn) :=
  let oldest := Back l in
  o ← deref oldest;
  let '(conn, ok) := assertConn (Value o) in
  let l := match oldest with
           | Some e => ListRemove (elemId e) l
           | None => l
           end in
  Returned (l, if ok then match conn with Some c => [c] | None => [] end
               else []).

Definition EntryRemove (entry : LRUConnsEntry) (h : Heap) : Heap :=
  match lruConns entry, element entry with
  | Some r, Some e => alter (ListRemove e) r h
  | _, _ => h
  end.

Definition Touch (entry : LRUConnsEntry) (h : Heap) : Heap :=
  match lruConns entry, element entry with
  | Some r, Some e => alter (MoveToFront e) r h
  | _, _ => h
  end.

(** Scenario S2: add A, B and C, touch A, then close the oldest until
    nothing is left. *)
Definition connA : Conn := 1%positive.
Definition connB : Conn := 2%positive.
Definition connC : Conn := 3%positive.

Definition S2_added : LRUConns :=
  (Add 0 (Some connC) (Add 0 (Some connB) (Add 0 (Some connA) NewLRUConns).1).1).1.

Definition S2_entryA : LRUConnsEntry := (Add 0 (Some connA) NewLRUConns).2.

Definition S2_heap : Heap := Touch S2_entryA {[ 0%nat := S2_added ]}.

Definition S2_touched : LRUConns := default NewLRUConns (S2_heap !! 0%nat).

Definition S2_after1 : LRUConns := ListRemove 1 S2_touched.
Definition S2_after2 : LRUConns := ListRemove 2 S2_after1.
Definition S2_after3 : LRUConns := ListRemove 0 S2_after2.

End LRU.

(** ** ActivityMonitoredConn (net.go, 742-832) *)

Module Activity.

Import Go.
Local Open Scope Z_scope.

(** A non-nil Go [error], by its message. *)
Definition error : Type := string.

(** Times are nanoseconds since the epoch, durations nanoseconds. *)
Record ActivityMonitoredConn : Type := mkActivityMonitoredConn {
  inner : Conn;
  inactivityTimeout : Z;
  activeOnWrite : bool;
  startTime : Z;
  lastActivityTime : Z;
  lruEntry : option LRU.LRUConnsEntry
}.

(** What the wrapper acts on besides its own fields: the clock (the
    value of the k-th [time.Now()]), the read deadline last set on the
    wrapped connection ([None]: never set), and the [LRUConns] objects. *)
Record World : Type := mkWorld {
  now : nat -> Z;
  ticks : nat;
  readDeadline : option Z;
  lrus : LRU.Heap
}.

Definition timeNow (w : World) : Z * World :=
  (now w (ticks w), mkWorld (now w) (S (ticks w)) (readDeadline w) (lrus w)).

Definition SetReadDeadline (t : Z) (w : World) : World :=
  mkWorld (now w) (ticks w) (Some t) (lrus w).

Definition touchEntry (entry : option LRU.LRUConnsEntry) (w : World) : World :=
  match entry with
  | Some e => mkWorld (now w) (ticks w) (readDeadline w) (LRU.Touch e (lrus w))
  | None => w
  end.

Definition set_lastActivityTime (t : Z) (c : ActivityMonitoredConn) :=
  mkActivityMonitoredConn (inner c) (inactivityTimeout c) (activeOnWrite c)
    (startTime c) t (lruEntry c).

Definition NewActivityMonitoredConn
    (conn : Conn) (inactivityTimeout : Z) (activeOnWrite : bool)
    (lruEntry : option LRU.LRUConnsEntry) (w : World)
    : ActivityMonitoredConn * World :=
  let w :=
    if inactivityTimeout >? 0 then
      let '(t, w) := timeNow w in SetReadDeadline (t + inactivityTimeout) w
    else w in
  let '(now, w) := timeNow w in
  (mkActivityMonitoredConn conn inactivityTimeout activeOnWrite now now lruEntry, w).

Definition GetStartTime (conn : ActivityMonitoredConn) : Z := startTime conn.

(** [time.Duration(lastActivityTime - conn.startTime)]: a subtraction of
    two int64 values, which wraps. *)
Definition GetActiveDuration (conn : ActivityMonitoredConn) : Z :=
  Int64.wrap (lastActivityTime conn - startTime conn).

(** [Read(buffer)]; [io] is what [conn.Conn.Read(buffer)] returned. *)
Definition Read (conn : ActivityMonitoredConn) (io : Z * option error) (w : World)
    : ActivityMonitoredConn * World * (Z * option error) :=
  match snd io with
  | None =>
    let '(t, w) := timeNow w in
    let conn := set_lastActivityTime t conn in
    let w :=
      if inactivityTimeout conn >? 0 then
        let '(t', w) := timeNow w in
        SetReadDeadline (t' + inactivityTimeout conn) w
      else w in
    let w := touchEntry (lruEntry conn) w in
    (conn, w, io)
  | Some _ => (conn, w, io)
  end.

(** [Write(buffer)]; [io] is what [conn.Conn.Write(buffer)] returned. *)
Definition Write (conn : ActivityMonitoredConn) (io : Z * option error) (w : World)
    : ActivityMonitoredConn * World * (Z * option error) :=
  match snd io with
  | None =>
    let '(conn, w) :=
      if activeOnWrite conn then
        let '(t, w) := timeNow w in
        let conn := set_lastActivityTime t conn in
        let w :=
          if inactivityTimeout conn >? 0 then
            let '(t', w) := timeNow w in
            SetReadDeadline (t' + inactivityTimeout conn) w
          else w in
        (conn, w)
      else (conn, w) in
    let w := touchEntry (lruEntry conn) w in
    (conn, w, io)
  | Some _ => (conn, w, io)
  end.

End Activity.

(** ** ResumeDownload (net.go, 537-694) *)

Module Download.

Local Open Scope Z_scope.

(** A non-nil Go [error], by its message. *)
Definition error : Type := string.

(** Files by name; contents are byte strings. *)
Abbreviation Files := (gmap string string).

(** [http.Header]: [Add] appends a value under a key. *)
Abbreviation Header := (list (string * string)).

Definition HeaderAdd (key value : string) (h : Header) : Header :=
  h ++ [(key, value)].

(** All values stored under [key], in the order they were added. *)
Definition HeaderValues (key : string) (h : Header) : list string :=
  (filter (fun kv => kv.1 = key) h).*2.

Record Request : Type := mkRequest {
  Method : string;
  URL : string;
  ReqHeader : Header
}.

(** An [*http.Response]: [ETag] is [Header.Get("ETag")]; [io.Copy] of
    [Body] into the partial file writes [BodyData] and then meets EOF, or
    [BodyError] when the transfer (or a write) fails after those bytes. *)
Record Response : Type := mkResponse {
  StatusCode : Z;
  ETag : string;
  BodyData : string;
  BodyError : option error
}.

Definition StatusPartialContent : Z := 206.
Definition StatusNotModified : Z := 304.
Definition StatusPreconditionFailed : Z := 412.
Definition StatusRequestedRangeNotSatisfiable : Z := 416.

(** The environment of one call: which system calls fail, and how the
    HTTP client answers.  A fault is the error the call returns. *)
Record Env : Type := mkEnv {
  openFault : option error;
  statFault : option error;
  readFault : option error;
  newRequestFault : string -> option error;
  Do : Request -> error + Response;
  writeETagFault : bool;
  closeFault : option error;
  renameFault : option error
}.

(** What a call returns, the files it leaves, and the exchange it made. *)
Record Result : Type := mkResult {
  n : Z;
  responseETag : string;
  err : option error;
  files : Files;
  sent : option Request;
  received : option Response
}.

(** [os.OpenFile(name, O_CREATE|O_APPEND|O_WRONLY, 0600)] creates an empty
    file when there is none. *)
Definition OpenFile (name : string) (fs : Files) : Files :=
  match fs !! name with
  | Some _ => fs
  | None => <[name := ""%string]> fs
  end.

(** [fileInfo.Size()]. *)
Definition Size (name : string) (fs : Files) : Z :=
  match fs !! name with
  | Some data => Z.of_nat (String.length data)
  | None => 0
  end.

(** [ioutil.ReadFile]: on success the slice is the content and is not nil,
    also for an empty file. *)
Definition ReadFile (env : Env) (name : string) (fs : Files) : error + string :=
  match readFault env with
  | Some e => inl e
  | None =>
    match fs !! name with
    | Some data => inr data
    | None => inl ("open " +:+ name +:+ ": no such file or directory")
    end
  end.

(** [ioutil.WriteFile]; its error is ignored by the caller. *)
Definition WriteFile (env : Env) (name data : string) (fs : Files) : Files :=
  if writeETagFault env then fs else <[name := data]> fs.

(** A write to a file opened with [O_APPEND]. *)
Definition Append (name data : string) (fs : Files) : Files :=
  match fs !! name with
  | Some old => <[name := old +:+ data]> fs
  | None => <[name := data]> fs
  end.

(** [os.Rename]: replaces the destination. *)
Definition Rename (old new : string) (fs : Files) : Files :=
  match fs !! old with
  | Some data => <[new := data]> (delete old fs)
  | None => fs
  end.

Section WithContextError.

(** [ContextError] of [psiphon/utils.go] wraps a non-nil error with the
    caller's location; it is taken as given. *)
Variable ContextError : error -> error.

Definition ResumeDownload (env : Env) (fs : Files)
    (requestUrl downloadFilename ifNoneMatchETag : string) : Result :=
  let partialFilename := downloadFilename +:+ ".part" in
  let partialETagFilename := downloadFilename +:+ ".part.etag" in
  match openFault env with
  | Some e => mkResult 0 "" (Some (ContextError e)) fs None None
  | None =>
  let fs := OpenFile partialFilename fs in
  match statFault env with
  | Some e => mkResult 0 "" (Some (ContextError e)) fs None None
  | None =>
  let size := Size partialFilename fs in
  (* partialETag: None is the nil slice *)
  let loaded : error + option string :=
    if size >? 0 then
      match ReadFile env partialETagFilename fs with
      | inl e => inl e
      | inr data => inr (Some data)
      end
    else inr None in
  match loaded with
  | inl e =>
    let fs := delete partialFilename fs in
    let fs := delete partialETagFilename fs in
    mkResult 0 ""
      (Some (ContextError ("failed to load partial download ETag: " +:+ e)))
      fs None None
  | inr partialETag =>
  match newRequestFault env requestUrl with
  | Some e => mkResult 0 "" (Some (ContextError e)) fs None None
  | None =>
  let header := HeaderAdd "Range" ("bytes=" +:+ pretty size +:+ "-") [] in
  let header :=
    match partialETag with
    | Some etag => HeaderAdd "If-Match" etag header
    | None =>
      if decide (ifNoneMatchETag ≠ ""%string)
      then HeaderAdd "If-None-Match" ifNoneMatchETag header
      else header
    end in
  let request := mkRequest "GET" requestUrl header in
  match Do env request with
  | inl e => mkResult 0 "" (Some (ContextError e)) fs (Some request) None
  | inr response =>
  let got := Some response in
  if bool_decide (StatusCode response ≠ StatusPartialContent) &&
     bool_decide (StatusCode response ≠ StatusRequestedRangeNotSatisfiable) &&
     bool_decide (StatusCode response ≠ StatusPreconditionFailed) &&
     bool_decide (StatusCode response ≠ StatusNotModified)
  then
    mkResult 0 ""
      (Some (ContextError
         ("unexpected response status code: " +:+ pretty (StatusCode response))))
      fs (Some request) got
  else
  let responseETag := ETag response in
  if decide (StatusCode response = StatusPreconditionFailed) then
    let fs := delete partialFilename fs in
    let fs := delete partialETagFilename fs in
    mkResult 0 "" (Some (ContextError "partial download ETag mismatch"))
      fs (Some request) got
  else if decide (StatusCode response = StatusNotModified) then
    let fs := delete partialFilename fs in
    let fs := delete partialETagFilename fs in
    mkResult 0 responseETag None fs (Some request) got
  else
  let fs := WriteFile env partialETagFilename responseETag fs in
  (* io.Copy(NewSyncFileWriter(file), response.Body) *)
  let n := Z.of_nat (String.length (BodyData response)) in
  let fs := Append partialFilename (BodyData response) fs in
  match BodyError response with
  | Some e => mkResult n "" (Some (ContextError e)) fs (Some request) got
  | None =>
  match closeFault env with
  | Some e => mkResult n "" (Some (ContextError e)) fs (Some request) got
  | None =>
  let fs := delete downloadFilename fs in
  match renameFault env with
  | Some e => mkResult n "" (Some (ContextError e)) fs (Some request) got
  | None =>
  let fs := Rename partialFilename downloadFilename fs in
  let fs := delete partialETagFilename fs in
  mkResult n responseETag None fs (Some request) got
  end end end end end end end end.

End WithContextError.

(** A partial download of three bytes captured at ETag v1, a server that
    answers 200, one that answers 206 with the rest, and a [ContextError]
    that adds nothing. *)
Definition files_partial : Files :=
  {[ "upgrade.part"%string := "abc"%string;
     "upgrade.part.etag"%string := "v1"%string ]}.

Definition response_200 : Response := mkResponse 200 "v1" "abcdefg" None.

Definition response_206 : Response := mkResponse 206 "v1" "defg" None.

Definition env_status_200 : Env :=
  mkEnv None None None (fun _ => None) (fun _ => inr response_200)
    false None None.

Definition env_206 : Env :=
  mkEnv None None None (fun _ => None) (fun _ => inr response_206)
    false None None.

Definition ContextError_id (e : error) : error := e.

End Download.

(** ** RunServices (services.go, 61-146) *)

Module Supervisor.

Local Open Scope Z_scope.

(** A non-nil Go [error], by its message; a nil [error] is [None]. *)
Definition error : Type := string.

Record Config : Type := mkConfig {
  RunLoadMonitor : bool;
  RunWebServer : bool
}.

(** [errors := make(chan error)]: no size argument, so no buffer. *)
Definition errorsCapacity : nat := 0.

Inductive Signal : Type :=
  | SigStop      (* os.Interrupt, os.Kill *)
  | SigReload    (* SIGUSR1 *)
  | SigLogLoad.  (* SIGUSR2 *)

(** Where the goroutine of [RunServices] stands, after the bootstrap of
    lines 43-69 has succeeded. *)
Inductive MainPC : Type :=
  | MSpawnLoadMonitor   (* 71 *)
  | MSpawnWebServer     (* 88 *)
  | MSpawnTunnelServer  (* 102 *)
  | MNotify             (* 113-124 *)
  | MSelect             (* 128, about to evaluate the select *)
  | MParked             (* 128, blocked in the select: no case was ready *)
  | MReload             (* 130, inside supportServices.Reload() *)
  | MLogLoad            (* 132, inside logServerLoad *)
  | MClose              (* 142 *)
  | MWait               (* 143 *)
  | MReturned.          (* 145 *)

(** The web server and tunnel server goroutines (90-97, 103-110). *)
Inductive WorkerPC : Type :=
  | WNotSpawned
  | WRunning                     (* inside RunWebServer / tunnelServer.Run *)
  | WPost (e : option error)     (* at the select that sends on errors *)
  | WDefer                       (* the deferred waitGroup.Done() is next *)
  | WExited.

(** The load monitor goroutine (73-85). *)
Inductive MonitorPC : Type :=
  | LNotSpawned
  | LStart     (* 74, waitGroup.Done() is next *)
  | LLoop      (* 78, in the select on shutdownBroadcast and the ticker *)
  | LExited.

Inductive Worker : Type := Web | Tunnel.

(** One attempt to send on [errors] and whether the send proceeded. *)
Record Post : Type := mkPost {
  poster : Worker;
  posted : option error;
  delivered : bool
}.

Record State : Type := mkState {
  main : MainPC;
  err : option error;              (* the variable err of RunServices *)
  web : WorkerPC;
  tunnel : WorkerPC;
  monitor : MonitorPC;
  waitGroup : Z;
  shutdownBroadcast : bool;        (* true once closed *)
  errors : list (option error);    (* values buffered in the channel *)
  pending : list Signal;           (* signals buffered in their channels *)
  posts : list Post                (* history of sends on errors *)
}.

Definition init : State :=
  mkState MSpawnLoadMonitor None WNotSpawned WNotSpawned LNotSpawned 0 false [] [] [].

Global Instance Signal_eq_dec : EqDecision Signal.
Proof. solve_decision. Defined.

Global Instance MainPC_eq_dec : EqDecision MainPC.
Proof. solve_decision. Defined.

Global Instance MonitorPC_eq_dec : EqDecision MonitorPC.
Proof. solve_decision. Defined.

Global Instance WorkerPC_eq_dec : EqDecision WorkerPC.
Proof. solve_decision. Defined.

(** The cases of the select at line 128. *)
Inductive Case : Type :=
  | CaseSignal (s : Signal)
  | CaseErrors.

(** A scheduling decision: which goroutine moves, or what the
    environment does. *)
Inductive Event : Type :=
  | Main                                      (* next statement of RunServices *)
  | Take (c : Case)                           (* RunServices takes a ready case *)
  | WorkerReturns (w : Worker) (e : option error)
                                              (* RunWebServer / Run returns e *)
  | WorkerPosts (w : Worker)                  (* select { case errors <- err: default: } *)
  | WorkerDone (w : Worker)                   (* deferred waitGroup.Done(), exit *)
  | MonitorStep                               (* next statement of the load monitor *)
  | MonitorTick                               (* case <-ticker.C *)
  | Deliver (s : Signal).                     (* the OS raises a signal *)

Definition set_main (pc : MainPC) (s : State) : State :=
  mkState pc (err s) (web s) (tunnel s) (monitor s) (waitGroup s)
    (shutdownBroadcast s) (errors s) (pending s) (posts s).

Definition set_err (e : option error) (s : State) : State :=
  mkState (main s) e (web s) (tunnel s) (monitor s) (waitGroup s)
    (shutdownBroadcast s) (errors s) (pending s) (posts s).

Definition set_monitor (pc : MonitorPC) (s : State) : State :=
  mkState (main s) (err s) (web s) (tunnel s) pc (waitGroup s)
    (shutdownBroadcast s) (errors s) (pending s) (posts s).

Definition set_waitGroup (n : Z) (s : State) : State :=
  mkState (main s) (err s) (web s) (tunnel s) (monitor s) n
    (shutdownBroadcast s) (errors s) (pending s) (posts s).

Definition set_shutdownBroadcast (b : bool) (s : State) : State :=
  mkState (main s) (err s) (web s) (tunnel s) (monitor s) (waitGroup s)
    b (errors s) (pending s) (posts s).

Definition set_errors (l : list (option error)) (s : State) : State :=
  mkState (main s) (err s) (web s) (tunnel s) (monitor s) (waitGroup s)
    (shutdownBroadcast s) l (pending s) (posts s).

Definition set_pending (l : list Signal) (s : State) : State :=
  mkState (main s) (err s) (web s) (tunnel s) (monitor s) (waitGroup s)
    (shutdownBroadcast s) (errors s) l (posts s).

Definition add_post (p : Post) (s : State) : State :=
  mkState (main s) (err s) (web s) (tunnel s) (monitor s) (waitGroup s)
    (shutdownBroadcast s) (errors s) (pending s) (posts s ++ [p]).

Definition worker (w : Worker) (s : State) : WorkerPC :=
  match w with
  | Web => web s
  | Tunnel => tunnel s
  end.

Definition set_worker (w : Worker) (pc : WorkerPC) (s : State) : State :=
  match w with
  | Web =>
    mkState (main s) (err s) pc (tunnel s) (monitor s) (waitGroup s)
      (shutdownBroadcast s) (errors s) (pending s) (posts s)
  | Tunnel =>
    mkState (main s) (err s) (web s) pc (monitor s) (waitGroup s)
      (shutdownBroadcast s) (errors s) (pending s) (posts s)
  end.

(** [waitGroup.Add(1)] and [waitGroup.Done()]. *)
Definition wgAdd (s : State) : State := set_waitGroup (waitGroup s + 1) s.
Definition wgDone (s : State) : State := set_waitGroup (waitGroup s - 1) s.

(** The body of a select case of the loop, entered with the value received. *)
Definition enterSignalCase (sig : Signal) (s : State) : State :=
  match sig with
  | SigReload => set_main MReload s
  | SigLogLoad => set_main MLogLoad s
  | SigStop => set_main MClose s          (* break loop *)
  end.

Definition enterErrorsCase (e : option error) (s : State) : State :=
  set_main MClose (set_err e s).          (* err = <-errors; break loop *)

(** Whether some case of the select at line 128 can proceed. *)
Definition someCaseReady (s : State) : bool :=
  negb (bool_decide (pending s = [])) || negb (bool_decide (errors s = [])).

(** One statement of [RunServices]. *)
Definition stepMain (cfg : Config) (s : State) : option State :=
  match main s with
  | MSpawnLoadMonitor =>
    Some (set_main MSpawnWebServer
            (if RunLoadMonitor cfg then set_monitor LStart (wgAdd s) else s))
  | MSpawnWebServer =>
    Some (set_main MSpawnTunnelServer
            (if RunWebServer cfg then set_worker Web WRunning (wgAdd s) else s))
  | MSpawnTunnelServer =>
    Some (set_main MNotify (set_worker Tunnel WRunning (wgAdd s)))
  | MNotify => Some (set_main MSelect (set_err None s))
  | MSelect => if someCaseReady s then None else Some (set_main MParked s)
  | MParked => None
  | MReload => Some (set_main MSelect s)
  | MLogLoad => Some (set_main MSelect s)
  | MClose => Some (set_main MWait (set_shutdownBroadcast true s))
  | MWait => if waitGroup s =? 0 then Some (set_main MReturned s) else None
  | MReturned => None
  end.

(** [RunServices], evaluating the select, takes the ready case [c]. *)
Definition stepTake (c : Case) (s : State) : option State :=
  match main s with
  | MSelect =>
    match c with
    | CaseSignal sig =>
      if bool_decide (sig ∈ pending s)
      then Some (enterSignalCase sig
                   (set_pending (filter (fun x => x ≠ sig) (pending s)) s))
      else None
    | CaseErrors =>
      match errors s with
      | e :: rest => Some (enterErrorsCase e (set_errors rest s))
      | [] => None
      end
    end
  | _ => None
  end.

(** [select { case errors <- err: default: }] in a worker.  The send
    proceeds when a receiver is blocked on the channel or the buffer has
    room; otherwise the default case runs and the value is dropped. *)
Definition stepPost (w : Worker) (s : State) : option State :=
  match worker w s with
  | WPost e =>
    let s := set_worker w WDefer s in
    if bool_decide (main s = MParked) then
      Some (add_post (mkPost w e true) (enterErrorsCase e s))
    else if bool_decide (length (errors s) < errorsCapacity)%nat then
      Some (add_post (mkPost w e true) (set_errors (errors s ++ [e]) s))
    else
      Some (add_post (mkPost w e false) s)
  | _ => None
  end.

(** The runtime's own non-blocking send of a signal to its channel, one
    of the three [make(chan os.Signal, 1)] handed to [signal.Notify]:
    each buffers one value. *)
Definition stepDeliver (sig : Signal) (s : State) : option State :=
  match main s with
  | MSpawnLoadMonitor | MSpawnWebServer | MSpawnTunnelServer | MNotify => None
  | MParked => Some (enterSignalCase sig s)
  | _ =>
    if bool_decide (sig ∈ pending s) then Some s
    else Some (set_pending (pending s ++ [sig]) s)
  end.

Definition stepMonitor (s : State) : option State :=
  match monitor s with
  | LStart => Some (set_monitor LLoop (wgDone s))
  | LLoop => if shutdownBroadcast s then Some (set_monitor LExited s) else None
  | _ => None
  end.

Definition step (cfg : Config) (ev : Event) (s : State) : option State :=
  match ev with
  | Main => stepMain cfg s
  | Take c => stepTake c s
  | WorkerReturns w e =>
    match worker w s with
    | WRunning => Some (set_worker w (WPost e) s)
    | _ => None
    end
  | WorkerPosts w => stepPost w s
  | WorkerDone w =>
    match worker w s with
    | WDefer => Some (set_worker w WExited (wgDone s))
    | _ => None
    end
  | MonitorStep => stepMonitor s
  | MonitorTick =>
    match monitor s with
    | LLoop => Some s
    | _ => None
    end
  | Deliver sig => stepDeliver sig s
  end.

(** A run under a schedule; [None] when the schedule asks a goroutine for
    a step it cannot take. *)
Fixpoint run (cfg : Config) (evs : list Event) (s : State) : option State :=
  match evs with
  | [] => Some s
  | ev :: evs' =>
    match step cfg ev s with
    | Some s' => run cfg evs' s'
    | None => None
    end
  end.

(** A goroutine that was started and has not returned. *)
Definition workerLive (pc : WorkerPC) : bool :=
  match pc with
  | WRunning | WPost _ | WDefer => true
  | WNotSpawned | WExited => false
  end.

Definition monitorLive (pc : MonitorPC) : bool :=
  match pc with
  | LStart | LLoop => true
  | LNotSpawned | LExited => false
  end.

(** The bookkeeping that ties the wait group to the goroutines: its
    counter is the number of workers started and not yet past their
    deferred [Done], plus one for a load monitor that has not yet run its
    [Done]. *)
Definition liveCount (pc : WorkerPC) : Z := if workerLive pc then 1 else 0.

Definition startingCount (pc : MonitorPC) : Z :=
  match pc with
  | LStart => 1
  | _ => 0
  end.

Definition spawnPhase (s : State) : Prop :=
  match main s with
  | MSpawnLoadMonitor =>
    monitor s = LNotSpawned /\ web s = WNotSpawned /\ tunnel s = WNotSpawned
  | MSpawnWebServer => web s = WNotSpawned /\ tunnel s = WNotSpawned
  | MSpawnTunnelServer => tunnel s = WNotSpawned
  | _ => tunnel s <> WNotSpawned
  end.

Definition counted (s : State) : Prop :=
  waitGroup s = liveCount (web s) + liveCount (tunnel s) + startingCount (monitor s) /\
  spawnPhase s /\
  (main s = MReturned -> waitGroup s = 0).

(** Configurations: the tunnel server alone, and with the load monitor. *)
Definition cfg_tunnel_only : Config := mkConfig false false.
Definition cfg_with_monitor : Config := mkConfig true false.

(** The tunnel server fails while RunServices is inside Reload. *)
Definition schedule_failure_during_reload : list Event :=
  [ Main; Main; Main; Main;     (* workers spawned, signals registered *)
    Main;                       (* no case ready: blocks in the select *)
    Deliver SigReload;          (* SIGUSR1: into supportServices.Reload() *)
    WorkerReturns Tunnel (Some "tunnel server failed"%string);
    WorkerPosts Tunnel;         (* non-blocking send on errors *)
    WorkerDone Tunnel;
    Main;                       (* Reload returns *)
    Main ].                     (* blocks in the select again *)

(** The same failure while RunServices is blocked in the select. *)
Definition schedule_failure_while_parked : list Event :=
  [ Main; Main; Main; Main; Main;
    WorkerReturns Tunnel (Some "tunnel server failed"%string);
    WorkerPosts Tunnel;
    WorkerDone Tunnel;
    Main; Main ].               (* close(shutdownBroadcast); Wait; return *)

(** An interrupt with the load monitor running. *)
Definition schedule_interrupt_with_monitor : list Event :=
  [ Main;                       (* waitGroup.Add(1); go load monitor *)
    MonitorStep;                (* line 74: waitGroup.Done() *)
    Main; Main; Main;           (* tunnel server spawned, signals registered *)
    Main;                       (* blocks in the select *)
    Deliver SigStop;            (* break loop *)
    Main;                       (* close(shutdownBroadcast) *)
    WorkerReturns Tunnel None;
    WorkerPosts Tunnel;
    WorkerDone Tunnel;
    Main ].                     (* waitGroup.Wait() passes; return err *)

End Supervisor.

(** ** ThrottledConn: further runs *)

Module ThrottleRuns.

Import Throttle.
Local Open Scope Z_scope.

(** Two reads on a connection built with a read rate of 0. *)
Definition trace_unmetered : list (Dir * Z * Outcome) :=
  [(Reads, 400, mkOutcome Raw [600; 200; -200]);
   (Reads, 400, mkOutcome Raw [])].

End ThrottleRuns.

(** ** LRUConns: reachable lists *)

Module LRUOrder.

Import Go LRU.

(** The lists a program can build: from [NewLRUConns] by [Add], by the
    list operations behind [Touch] and [Remove], and by [CloseOldest]
    calls that returned. *)
Inductive reachable : LRUConns -> Prop :=
  | reach_New : reachable NewLRUConns
  | reach_Add l self conn : reachable l -> reachable (Add self conn l).1
  | reach_Touch l e : reachable l -> reachable (MoveToFront e l)
  | reach_Remove l e : reachable l -> reachable (ListRemove e l)
  | reach_CloseOldest l l' closed :
      reachable l -> CloseOldest l = Returned (l', closed) -> reachable l'.

(** Element identities are distinct and were all handed out already. *)
Definition distinct (l : LRUConns) : Prop :=
  NoDup (elemId <$> elems l) /\
  Forall (fun x => elemId x < nextId l)%nat (elems l).

(** [n] calls of [CloseOldest] in a row; the handles closed, in call order. *)
Fixpoint CloseOldestN (n : nat) (l : LRUConns) : Result (LRUConns * list Conn) :=
  match n with
  | O => Returned (l, [])
  | S n' =>
    r1 ← CloseOldest l;
    r2 ← CloseOldestN n' r1.1;
    Returned (r2.1, r1.2 ++ r2.2)
  end.

(** The connection an element holds, as the list of handles to close. *)
Definition held (x : Element) : list Conn :=
  match Value x with
  | Some c => [c]
  | None => []
  end.

End LRUOrder.

(** ** ActivityMonitoredConn: sequences of reads and writes *)

Module ActivityRuns.

Import Go Activity.
Local Open Scope Z_scope.

(** A read or write on the wrapper, with what the wrapped connection
    returned for it. *)
Inductive Op : Type :=
  | OpRead (n : Z) (err : option error)
  | OpWrite (n : Z) (err : option error).

Definition apply (op : Op) (conn : ActivityMonitoredConn) (w : World)
    : ActivityMonitoredConn * World :=
  match op with
  | OpRead n e => (Read conn (n, e) w).1
  | OpWrite n e => (Write conn (n, e) w).1
  end.

Fixpoint run (ops : list Op) (conn : ActivityMonitoredConn) (w : World)
    : ActivityMonitoredConn * World :=
  match ops with
  | [] => (conn, w)
  | op :: ops' => run ops' (apply op conn w).1 (apply op conn w).2
  end.

Definition isWrite (op : Op) : Prop :=
  match op with
  | OpWrite _ _ => True
  | OpRead _ _ => False
  end.

(** A clock that never runs backwards. *)
Definition monotone (clock : nat -> Z) : Prop :=
  forall i j, (i <= j)%nat -> clock i <= clock j.

(** A clock that advances one second per reading, and a world using it. *)
Definition clock_1s (k : nat) : Z := 1000000000 * Z.of_nat k.

Definition world_1s : World := mkWorld clock_1s 0 None ∅.

(** The same clock stopped after a million seconds, so that every
    reading is an int64 number of nanoseconds since the epoch. *)
Definition clock_stopping (k : nat) : Z :=
  1000000000 * Z.min (Z.of_nat k) 1000000.

Definition world_stopping : World := mkWorld clock_stopping 0 None ∅.

(** Scenario S1: a timeout of 200ms, writes not counted as activity. *)
Definition timeout_200ms : Z := 200000000.

Definition ops_write_then_read : list Op := [OpWrite 5 None; OpRead 5 None].

Definition ops_writes_only : list Op :=
  [OpWrite 5 None; OpWrite 0 (Some "broken pipe"%string)].

Definition conn_S1 : ActivityMonitoredConn :=
  (NewActivityMonitoredConn 1%positive timeout_200ms false None world_1s).1.

Definition world_S1 : World :=
  (NewActivityMonitoredConn 1%positive timeout_200ms false None world_1s).2.

End ActivityRuns.

(** ** ResumeDownload: further servers *)

Module DownloadRuns.

Import Download.

(** Servers for the scenarios: one whose ETag no longer matches, one
    that reports no change, and one whose transfer is cut after three
    bytes. *)
Definition response_412 : Response := mkResponse 412 "v2" "" None.

Definition response_304 : Response := mkResponse 304 "v1" "" None.

Definition response_cut : Response :=
  mkResponse 206 "v1" "abc" (Some "connection reset by peer"%string).

Definition env_answering (resp : Response) : Env :=
  mkEnv None None None (fun _ => None) (fun _ => inr resp) false None None.

(** Partial bytes whose ETag file is missing. *)
Definition files_no_etag : Files := {[ "upgrade.part"%string := "abc"%string ]}.

End DownloadRuns.

(** ** RunServices: order of events *)

Module SupervisorOrder.

Import Supervisor.
Local Open Scope Z_scope.

(** The select loop has been left: [break loop] was taken. *)
Definition loopExited (pc : MainPC) : bool :=
  match pc with
  | MClose | MWait | MReturned => true
  | _ => false
  end.

(** [close(shutdownBroadcast)] has run. *)
Definition broadcastDone (pc : MainPC) : bool :=
  match pc with
  | MWait | MReturned => true
  | _ => false
  end.

(** The posts whose send proceeded. *)
Definition deliveredPosts (s : State) : list Post :=
  filter (fun p => delivered p = true) (posts s).

(** How the run so far hangs together: the broadcast is closed exactly
    once the loop is behind; nothing is ever buffered in [errors]; the
    load monitor leaves only after the broadcast; and [err] is nil until
    the one post that was received, whose value it then holds. *)
Definition orderly (s : State) : Prop :=
  shutdownBroadcast s = broadcastDone (main s) /\
  errors s = [] /\
  (monitor s = LExited -> shutdownBroadcast s = true) /\
  match deliveredPosts s with
  | [] => err s = None
  | [p] => err s = posted p /\ loopExited (main s) = true
  | _ => False
  end.

(** Where the runs of [schedule_failure_while_parked] and
    [schedule_interrupt_with_monitor] end. *)
Definition state_after_failure : State :=
  mkState MReturned (Some "tunnel server failed"%string)
    WNotSpawned WExited LNotSpawned 0 true [] []
    [mkPost Tunnel (Some "tunnel server failed"%string) true].

Definition state_after_interrupt : State :=
  mkState MReturned None WNotSpawned WExited LLoop 0 true [] []
    [mkPost Tunnel None false].

End SupervisorOrder.

(** ** WaitForNetworkConnectivity (net.go, 337-371) *)

Module Connectivity.

Local Open Scope Z_scope.

(** What [reflect.Select] returned: the index of the chosen case (0 is
    the ticker, i+1 the i-th stop channel) and whether a value was
    received ([false] for a closed channel). *)
Record Selected : Type := mkSelected {
  chosen : nat;
  ok : bool
}.

(** The ticker case, with a value. *)
Definition isTick (r : Selected) : bool := Nat.eqb (chosen r) 0 && ok r.

(** The [for] loop, entered for the [i]-th time: [has k] is what the
    k-th call of [HasNetworkConnectivity] returns (the call before the
    loop is call 0) and [sel i] what the i-th [reflect.Select] returns.
    [fuel] bounds the iterations; [None] means the loop is still
    waiting. *)
Fixpoint waitLoop (fuel : nat) (has : nat -> Z) (sel : nat -> Selected) (i : nat)
    : option bool :=
  match fuel with
  | O => None
  | S fuel' =>
    if has (S i) =? 1 then Some true
    else if isTick (sel i) then waitLoop fuel' has sel (S i)
    else Some false
  end.

(** [connectivityChecker] is [None] for a nil interface. *)
Definition WaitForNetworkConnectivity (fuel : nat)
    (connectivityChecker : option (nat -> Z)) (sel : nat -> Selected)
    : option bool :=
  match connectivityChecker with
  | None => Some true
  | Some has => if has 0%nat =? 1 then Some true else waitLoop fuel has sel 0
  end.

(** A checker that reports connectivity from its fourth call on, a
    select that always ticks, and one whose third outcome is a closed
    stop channel. *)
Definition has_from_3 (k : nat) : Z := if (3 <=? k)%nat then 1 else 0.

Definition has_never (k : nat) : Z := 0.

Definition always_tick (i : nat) : Selected := mkSelected 0 true.

Definition stop_at_2 (i : nat) : Selected :=
  if Nat.eqb i 2 then mkSelected 1 false else mkSelected 0 true.

End Connectivity.

(** ** ResolveIP (net.go, 373-403) *)

Module DNS.

Local Open Scope Z_scope.

Definition error : Type := string.

(** A [net.IP], by its bytes. *)
Definition IP : Type := list Z.

(** A resource record of the answer section: a [*dns.A] with its address
    and [Hdr.Ttl] (a uint32), or a record of another type. *)
Inductive RR : Type :=
  | RR_A (A : IP) (Ttl : Z)
  | RR_other (Ttl : Z).

(** [time.Second], in nanoseconds. *)
Definition Second : Z := 1000000000.

(** [time.Duration(a.Hdr.Ttl) * time.Second], an int64 product. *)
Definition ttlDuration (Ttl : Z) : Z := Int64.wrap (Ttl * Second).

(** The loop over [response.Answer]. *)
Fixpoint collect (answers : list RR) (addrs : list IP) (ttls : list Z)
    : list IP * list Z :=
  match answers with
  | [] => (addrs, ttls)
  | RR_A a ttl :: rest => collect rest (addrs ++ [a]) (ttls ++ [ttlDuration ttl])
  | RR_other _ :: rest => collect rest addrs ttls
  end.

Section WithContextError.

Variable ContextError : error -> error.

(** [reply] is what [dnsConn.ReadMsg()] returned: an error, or the
    answer section of the response. *)
Definition ResolveIP (reply : error + list RR)
    : list IP * list Z * option error :=
  match reply with
  | inl e => ([], [], Some (ContextError e))
  | inr answers =>
    let '(addrs, ttls) := collect answers [] [] in
    (addrs, ttls, None)
  end.

End WithContextError.

(** The A records of an answer section, with their TTL in seconds. *)
Fixpoint aRecords (answers : list RR) : list (IP * Z) :=
  match answers with
  | [] => []
  | RR_A a ttl :: rest => (a, ttl) :: aRecords rest
  | RR_other _ :: rest => aRecords rest
  end.

Definition ttlOf (r : RR) : Z :=
  match r with
  | RR_A _ ttl => ttl
  | RR_other ttl => ttl
  end.

Definition answers_example : list RR :=
  [RR_other 30; RR_A [93; 184; 216; 34] 300; RR_A [10; 0; 0; 1] 4294967295].

End DNS.

(** * Properties *)

(** ** Machine integers *)

Module Int64Facts.

Import Int64.
Local Open Scope Z_scope.

Lemma wrap_in_range z : in_range (wrap z).
Proof.
  unfold in_range, wrap, min_int, max_int.
  pose proof (Z.mod_pos_bound (z + 2 ^ 63) (2 ^ 64)). lia.
Qed.

Lemma wrap_id z : in_range z -> wrap z = z.
Proof.
  unfold in_range, wrap, min_int, max_int. intros Hz.
  rewrite Z.mod_small; lia.
Qed.

Lemma AddInt64_exact x d : in_range (x + d) -> AddInt64 x d = x + d.
Proof. apply wrap_id. Qed.

Lemma AddInt64_in_range x d : in_range (AddInt64 x d).
Proof. apply wrap_in_range. Qed.

(** From a positive counter, subtracting a buffer length cannot wrap. *)
Lemma AddInt64_sub_pos x len :
  0 < x <= max_int -> 0 <= len <= max_int -> AddInt64 x (- len) = x - len.
Proof.
  intros Hx Hl. apply AddInt64_exact.
  unfold in_range, min_int, max_int in *. lia.
Qed.

End Int64Facts.

(** ** ThrottledConn *)

Module ThrottleProofs.

Import Int64 Int64Facts Throttle.
Local Open Scope Z_scope.

Example Read_first_400 :
  Read 3 conn_1000_100 400 =
  Some (mkThrottledConn (-200) 1 (RateLimited 100) 1000 0 (RateLimited 100),
        mkOutcome (RateLimited 100) [600; 200; -200]).
Proof. reflexivity. Qed.

Example Read_needs_fuel : Read 2 conn_1000_100 400 = None.
Proof. reflexivity. Qed.

(** The three ways through the body of a call. *)
Lemma Call_limiting d fuel conn len :
  limiting d conn ≠ 0 ->
  Call d (S fuel) conn len = Some (conn, mkOutcome (limited d conn) []).
Proof.
  intros H. destruct d; simpl in *;
    apply Z.eqb_neq in H; rewrite H; reflexivity.
Qed.

Lemma Call_trip d fuel conn len :
  limiting d conn = 0 ->
  AddInt64 (unlimited d conn) (- len) <= 0 ->
  Call d (S fuel) conn len =
  Some (tripped d (AddInt64 (unlimited d conn) (- len)) conn,
        mkOutcome (limited d conn) [AddInt64 (unlimited d conn) (- len)]).
Proof.
  intros H0 Hn. destruct d; simpl in *; rewrite H0; simpl;
    apply Z.leb_le in Hn; rewrite Hn; reflexivity.
Qed.

Lemma Call_retry d fuel conn len :
  limiting d conn = 0 ->
  0 < AddInt64 (unlimited d conn) (- len) ->
  Call d (S fuel) conn len =
  match Call d fuel (charged d (AddInt64 (unlimited d conn) (- len)) conn) len with
  | Some (conn', o) =>
    Some (conn', mkOutcome (via o) (AddInt64 (unlimited d conn) (- len) :: adds o))
  | None => None
  end.
Proof.
  intros H0 Hn. destruct d; simpl in *; rewrite H0; simpl;
    apply Z.leb_gt in Hn; rewrite Hn; reflexivity.
Qed.

Lemma charged_fields d n conn :
  limiting d (charged d n conn) = limiting d conn /\
  limited d (charged d n conn) = limited d conn /\
  unlimited d (charged d n conn) = n /\
  limiting (other d) (charged d n conn) = limiting (other d) conn /\
  limited (other d) (charged d n conn) = limited (other d) conn /\
  unlimited (other d) (charged d n conn) = unlimited (other d) conn.
Proof. destruct d; simpl; auto 10. Qed.

Lemma tripped_fields d n conn :
  limiting d (tripped d n conn) = 1 /\
  limited d (tripped d n conn) = limited d conn /\
  unlimited d (tripped d n conn) = n /\
  limiting (other d) (tripped d n conn) = limiting (other d) conn /\
  limited (other d) (tripped d n conn) = limited (other d) conn /\
  unlimited (other d) (tripped d n conn) = unlimited (other d) conn.
Proof. destruct d; simpl; auto 10. Qed.

(** What any returned call leaves behind. *)
Lemma Call_frame d fuel : forall conn len conn' o,
  Call d fuel conn len = Some (conn', o) ->
  via o = limited d conn /\
  limited d conn' = limited d conn /\
  limited (other d) conn' = limited (other d) conn /\
  limiting (other d) conn' = limiting (other d) conn /\
  unlimited (other d) conn' = unlimited (other d) conn /\
  (limiting d conn ≠ 0 -> conn' = conn /\ adds o = []) /\
  (limiting d conn = 0 -> limiting d conn' = 1).
Proof.
  induction fuel as [|fuel IH]; intros conn len conn' o Hc.
  - destruct d; discriminate.
  - destruct (decide (limiting d conn = 0)) as [H0|H0].
    + destruct (Z_le_gt_dec (AddInt64 (unlimited d conn) (- len)) 0) as [Hn|Hn].
      * rewrite Call_trip in Hc by assumption. inversion Hc; subst; clear Hc.
        pose proof (tripped_fields d (AddInt64 (unlimited d conn) (- len)) conn)
          as (? & ? & ? & ? & ? & ?).
        simpl. repeat split; auto; intros; congruence.
      * rewrite Call_retry in Hc by lia.
        destruct (Call d fuel _ len) as [[c1 o1]|] eqn:Hr; [|discriminate].
        inversion Hc; subst; clear Hc.
        pose proof (charged_fields d (AddInt64 (unlimited d conn) (- len)) conn)
          as (E1 & E2 & E3 & E4 & E5 & E6).
        apply IH in Hr as (R1 & R2 & R3 & R4 & R5 & R6 & R7).
        simpl. repeat split; try congruence; intros; try congruence.
        apply R7. congruence.
    + rewrite Call_limiting in Hc by assumption. inversion Hc; subst; clear Hc.
      simpl. repeat split; auto; intros; congruence.
Qed.

Lemma New_fields d ur rr uw rw :
  limited d (NewThrottledConn ur rr uw rw) = streamFor (rateOf d rr rw) /\
  limiting d (NewThrottledConn ur rr uw rw) = 0.
Proof. destruct d; split; reflexivity. Qed.

(** Over any sequence of calls the prepared streams stay what they were,
    and a direction that is limiting stays so, bypassing the counter. *)
Lemma calls_frame d conn tr conn' :
  calls conn tr conn' ->
  limited d conn' = limited d conn /\
  (limiting d conn = 1 ->
   limiting d conn' = 1 /\
   forall len o, (d, len, o) ∈ tr -> via o = limited d conn /\ adds o = []).
Proof.
  induction 1 as [conn|conn op conn1 o tr conn2 Hcall Hrest IH].
  - split; [reflexivity|]. intros H1. split; [assumption|].
    intros len o Hin. inversion Hin.
  - destruct Hcall as [d' fuel conn len conn1 o Hc].
    apply Call_frame in Hc as (F1 & F2 & F3 & F4 & F5 & F6 & F7).
    destruct IH as [IH1 IH2].
    destruct (decide (d' = d)) as [->|Hne].
    + split; [congruence|]. intros H1.
      destruct F6 as [-> Hadds]; [lia|].
      destruct (IH2 H1) as [IH3 IH4]. split; [assumption|].
      intros len0 o0 Hin. apply elem_of_cons in Hin as [Heq|Hin].
      * inversion Heq; subst. auto.
      * eauto.
    + assert (d = other d') as -> by (destruct d, d'; simpl; congruence).
      split; [congruence|]. intros H1.
      destruct IH2 as [IH3 IH4]; [congruence|]. split; [assumption|].
      intros len0 o0 Hin. apply elem_of_cons in Hin as [Heq|Hin].
      * inversion Heq; subst. destruct d'; discriminate.
      * rewrite <- F3. eauto.
Qed.

(** From a positive counter a call with a non-empty buffer returns within
    as many retries as the counter has bytes. *)
Lemma Call_from_positive d len :
  1 <= len <= max_int ->
  forall fuel conn,
  limiting d conn = 0 ->
  0 < unlimited d conn <= max_int ->
  (Z.to_nat (unlimited d conn) <= fuel)%nat ->
  exists conn' o,
    Call d fuel conn len = Some (conn', o) /\
    via o = limited d conn /\
    (exists tl, adds o = (unlimited d conn - len) :: tl) /\
    retries_decrease len (adds o).
Proof.
  intros Hlen. induction fuel as [|fuel IH]; intros conn H0 Hc Hf; [lia|].
  assert (Hn : AddInt64 (unlimited d conn) (- len) = unlimited d conn - len)
    by (apply AddInt64_sub_pos; lia).
  destruct (Z_le_gt_dec (unlimited d conn - len) 0) as [Hle|Hgt].
  - rewrite Call_trip by (assumption || lia). rewrite Hn.
    do 2 eexists. split; [reflexivity|]. simpl. eauto.
  - rewrite Call_retry by (assumption || lia). rewrite Hn.
    pose proof (charged_fields d (unlimited d conn - len) conn)
      as (E1 & E2 & E3 & _).
    destruct (IH (charged d (unlimited d conn - len) conn))
      as (conn' & o & -> & Hvia & [tl Htl] & Hdec); [congruence|lia|lia|].
    do 2 eexists. split; [reflexivity|]. simpl.
    split; [congruence|]. split; [eauto|].
    rewrite Htl in *. rewrite E3 in *. cbn [retries_decrease].
    repeat split; try lia. exact Hdec.
Qed.

(** With an empty buffer and budget left, the call only calls itself. *)
Lemma Call_empty_buffer d : forall fuel conn,
  limiting d conn = 0 ->
  0 < unlimited d conn <= max_int ->
  Call d fuel conn 0 = None.
Proof.
  induction fuel as [|fuel IH]; intros conn H0 Hc.
  - destruct d; reflexivity.
  - assert (Hn : AddInt64 (unlimited d conn) (- 0) = unlimited d conn).
    { rewrite AddInt64_sub_pos by lia. lia. }
    rewrite Call_retry by (assumption || lia). rewrite Hn.
    pose proof (charged_fields d (unlimited d conn) conn) as (E1 & E2 & E3 & _).
    rewrite IH; [reflexivity|congruence|lia].
Qed.

(** C4 does not hold of the code: with 1000 unmetered bytes and the flag
    at 0, a 400-byte read leaves 600 > 0 after its first subtraction, yet
    the call, calling [conn.Read] again where the wrapped connection's
    read was meant, subtracts three times and ends in the rate limited
    reader, whatever the recursion depth allowed.  The second and third
    400-byte reads find the flag set and are rate limited too. *)
Lemma Read_400_of_1000_counterexample :
  limitingReads conn_1000_100 = 0 /\
  0 < AddInt64 (unlimitedReadBytes conn_1000_100) (- 400) /\
  Read 3 conn_1000_100 400 =
    Some (conn_tripped, mkOutcome (RateLimited 100) [600; 200; -200]) /\
  (forall fuel conn' o,
     Read fuel conn_1000_100 400 = Some (conn', o) ->
     via o <> Raw /\ length (adds o) <> 1%nat) /\
  Read 1 conn_tripped 400 =
    Some (conn_tripped, mkOutcome (RateLimited 100) []).
Proof.
  split; [reflexivity|]. split; [reflexivity|]. split; [reflexivity|].
  split; [|reflexivity].
  intros fuel conn' o H.
  destruct fuel as [|[|[|fuel]]]; try discriminate.
  simpl in H. inversion H; subst; simpl. split; [discriminate|lia].
Qed.

(** A call made while the direction's flag is 0 whose
    subtraction leaves the counter at or below 0 subtracts once, sets the
    flag and performs the I/O through the stream prepared for the
    direction at construction, which is the rate limiter, and not the
    wrapped connection, whenever the configured rate is > 0. *)
Theorem Call_budget_exhausted (d : Dir) (ur rr uw rw : Z)
    (tr : list (Dir * Z * Outcome)) (conn : ThrottledConn) (len : Z) (fuel : nat) :
  calls (NewThrottledConn ur rr uw rw) tr conn ->
  limiting d conn = 0 ->
  AddInt64 (unlimited d conn) (- len) <= 0 ->
  exists conn' o,
    Call d (S fuel) conn len = Some (conn', o) /\
    adds o = [AddInt64 (unlimited d conn) (- len)] /\
    unlimited d conn' = AddInt64 (unlimited d conn) (- len) /\
    limiting d conn' = 1 /\
    via o = limited d conn /\
    (rateOf d rr rw > 0 ->
     via o = RateLimited (rateOf d rr rw) /\ via o <> Raw) /\
    (rateOf d rr rw = 0 -> via o = Raw).
Proof.
  intros Hreach H0 Hn.
  apply (calls_frame d) in Hreach as [Hlim _].
  destruct (New_fields d ur rr uw rw) as [Hnew _].
  rewrite Call_trip by assumption.
  pose proof (tripped_fields d (AddInt64 (unlimited d conn) (- len)) conn)
    as (T1 & T2 & T3 & _).
  do 2 eexists. split; [reflexivity|]. simpl.
  repeat split; try assumption.
  - rewrite Hlim, Hnew. unfold streamFor.
    destruct (Z.eqb_spec (rateOf d rr rw) 0); [lia|reflexivity].
  - rewrite Hlim, Hnew. unfold streamFor.
    destruct (Z.eqb_spec (rateOf d rr rw) 0); [lia|discriminate].
  - intros Hr. rewrite Hlim, Hnew, Hr. reflexivity.
Qed.

(** A 400-byte read that finds 200 unmetered bytes left at 100 bytes/s. *)
Lemma Call_budget_exhausted_witness :
  exists conn' o,
    Call Reads 1 conn_200_100 400 = Some (conn', o) /\
    adds o = [AddInt64 (unlimited Reads conn_200_100) (- 400)] /\
    unlimited Reads conn' = AddInt64 (unlimited Reads conn_200_100) (- 400) /\
    limiting Reads conn' = 1 /\
    via o = limited Reads conn_200_100 /\
    (rateOf Reads 100 100 > 0 ->
     via o = RateLimited (rateOf Reads 100 100) /\ via o <> Raw) /\
    (rateOf Reads 100 100 = 0 -> via o = Raw).
Proof.
  apply (Call_budget_exhausted Reads 200 100 1000 100 [] conn_200_100 400 0).
  - apply calls_nil.
  - reflexivity.
  - vm_compute. discriminate.
Defined.

Example Read_400_of_200 :
  Read 1 conn_200_100 400 =
  Some (mkThrottledConn (-200) 1 (RateLimited 100) 1000 0 (RateLimited 100),
        mkOutcome (RateLimited 100) [-200]).
Proof. reflexivity. Qed.



(** C10: a Read or Write with a non-empty buffer returns; every retry
    finds a positive counter and leaves it smaller by len(buffer).  With
    an empty buffer and budget left the recursion never ends. *)
Theorem Read_Write_terminate (d : Dir) (conn : ThrottledConn) (len : Z) :
  in_range (unlimited d conn) ->
  1 <= len <= max_int ->
  (exists fuel conn' o,
     Call d fuel conn len = Some (conn', o) /\
     via o = limited d conn /\
     retries_decrease len (adds o)) /\
  (forall fuel,
     limiting d conn = 0 -> 0 < unlimited d conn ->
     Call d fuel conn 0 = None).
Proof.
  intros Hc Hlen. split.
  - destruct (decide (limiting d conn = 0)) as [H0|H0].
    + pose proof (AddInt64_in_range (unlimited d conn) (- len)) as Hn.
      destruct (Z_le_gt_dec (AddInt64 (unlimited d conn) (- len)) 0) as [Hle|Hgt].
      * exists 1%nat. rewrite Call_trip by assumption.
        do 2 eexists. split; [reflexivity|]. simpl. auto.
      * set (n := AddInt64 (unlimited d conn) (- len)) in *.
        pose proof (charged_fields d n conn) as (E1 & E2 & E3 & _).
        destruct (Call_from_positive d len Hlen (Z.to_nat n) (charged d n conn))
          as (conn' & o & Hcall & Hvia & [tl Htl] & Hdec);
          [congruence|unfold in_range in Hn; lia|lia|].
        exists (S (Z.to_nat n)). rewrite Call_retry by (assumption || lia).
        fold n. rewrite Hcall. do 2 eexists. split; [reflexivity|]. simpl.
        split; [congruence|]. rewrite Htl in *. rewrite E3 in *.
        cbn [retries_decrease]. repeat split; try lia. exact Hdec.
    + exists 1%nat. rewrite Call_limiting by assumption.
      do 2 eexists. split; [reflexivity|]. simpl. auto.
  - intros fuel H0 Hpos. apply Call_empty_buffer; [assumption|].
    unfold in_range in Hc. lia.
Qed.

Lemma Read_Write_terminate_witness :
  (exists fuel conn' o,
     Call Reads fuel conn_1000_100 400 = Some (conn', o) /\
     via o = limited Reads conn_1000_100 /\
     retries_decrease 400 (adds o)) /\
  (forall fuel,
     limiting Reads conn_1000_100 = 0 -> 0 < unlimited Reads conn_1000_100 ->
     Call Reads fuel conn_1000_100 0 = None).
Proof.
  apply (Read_Write_terminate Reads conn_1000_100 400).
  - unfold in_range, min_int, max_int. simpl. lia.
  - unfold max_int. lia.
Defined.

End ThrottleProofs.

(** ** Conns *)

Module RegistryProofs.

Import Go Registry.

Lemma Add_ok conn c : (Add conn c).2 = true <-> isClosed c = false.
Proof. unfold Add. destruct (isClosed c); simpl; split; congruence. Qed.

Lemma Add_registers conn c :
  isClosed c = false -> registered (Add conn c).1 = {[conn]} ∪ registered c.
Proof.
  intros H. unfold Add, registered. rewrite H. simpl.
  destruct (conns c); rewrite dom_insert_L; [reflexivity|].
  by rewrite dom_empty_L.
Qed.

Lemma Add_closed conn c : isClosed c = true -> Add conn c = (c, false).
Proof. intros H. unfold Add. by rewrite H. Qed.

Lemma range_keys_registered m x : x ∈ range_keys m <-> x ∈ registered (mkConns true m).
Proof.
  unfold range_keys, registered. simpl. destruct m as [m|]; [|set_solver].
  rewrite elem_of_dom, list_elem_of_fmap. split.
  - intros [[k v] [-> Hin]]. apply elem_of_map_to_list in Hin. by exists v.
  - intros [v Hv]. exists (x, v). split; [reflexivity|].
    by apply elem_of_map_to_list.
Qed.

Lemma range_keys_NoDup m : NoDup (range_keys m).
Proof.
  destruct m as [m|]; simpl; [apply NoDup_fst_map_to_list|constructor].
Qed.

Lemma Remove_closed_empty conn c :
  registered c = ∅ -> registered (Remove conn c) = ∅ /\ isClosed (Remove conn c) = isClosed c.
Proof.
  unfold Remove, registered. simpl. intros Hemp. split; [|reflexivity].
  destruct (conns c) as [m|]; simpl; [|reflexivity].
  rewrite dom_delete_L, Hemp. apply set_eq. intros x.
  rewrite elem_of_difference, elem_of_empty. tauto.
Qed.

(** Closed and empty is kept by every operation but [Reset]; meanwhile
    every [Add] fails and there is nothing left to close. *)
Lemma run_closed ops : forall c,
  OpReset ∉ ops ->
  isClosed c = true ->
  registered c = ∅ ->
  isClosed (run ops c).1 = true /\
  registered (run ops c).1 = ∅ /\
  forall o, o ∈ (run ops c).2 -> exists conn, o = AddReturned conn false.
Proof.
  induction ops as [|op ops IH]; intros c Hno Hcl Hemp; simpl.
  - repeat split; auto. intros o Ho. inversion Ho.
  - apply not_elem_of_cons in Hno as [Hop Hno].
    assert (Hstep : isClosed (apply op c).1 = true /\
                    registered (apply op c).1 = ∅ /\
                    forall o, o ∈ (apply op c).2 ->
                              exists conn, o = AddReturned conn false).
    { destruct op as [|conn|conn|]; cbn [apply].
      - congruence.
      - rewrite Add_closed by assumption. simpl. repeat split; auto.
        intros o Ho. apply list_elem_of_singleton in Ho. eauto.
      - destruct (Remove_closed_empty conn c Hemp) as [E1 E2]. simpl.
        repeat split; [congruence|assumption|]. intros o Ho. inversion Ho.
      - simpl. repeat split; auto. intros o Ho.
        apply list_elem_of_fmap in Ho as [x [_ Hx]].
        apply range_keys_registered in Hx. unfold registered in *. simpl in *.
        rewrite Hemp in Hx. set_solver. }
    destruct (apply op c) as [c1 o1]. simpl in Hstep.
    destruct Hstep as (S1 & S2 & S3).
    specialize (IH c1 Hno S1 S2).
    destruct (run ops c1) as [c2 o2]. simpl in *.
    destruct IH as (I1 & I2 & I3). repeat split; auto.
    intros o Ho. apply elem_of_app in Ho as [Ho|Ho]; auto.
Qed.

(** C5: [Add] returns true exactly when the registry is not closed;
    [CloseAll] invokes [Close] once on every registered handle, marks the
    registry closed and empties it; and after [CloseAll], over any
    operations short of a [Reset], every [Add] returns false and no handle
    is registered. *)
Theorem registry_closure (c : Conns) (conn : Conn) (ops : list Op) :
  OpReset ∉ ops ->
  ((Add conn c).2 = true <-> isClosed c = false) /\
  (isClosed c = false -> conn ∈ registered (Add conn c).1) /\
  (forall x, x ∈ (CloseAll c).2 <-> x ∈ registered c) /\
  NoDup (CloseAll c).2 /\
  isClosed (CloseAll c).1 = true /\
  registered (CloseAll c).1 = ∅ /\
  isClosed (run ops (CloseAll c).1).1 = true /\
  registered (run ops (CloseAll c).1).1 = ∅ /\
  (forall x ok, AddReturned x ok ∈ (run ops (CloseAll c).1).2 -> ok = false).
Proof.
  intros Hno.
  split; [apply Add_ok|].
  split; [intros H; rewrite Add_registers by assumption; set_solver|].
  split; [intros x; unfold CloseAll; simpl; apply range_keys_registered|].
  split; [apply range_keys_NoDup|].
  split; [reflexivity|]. split; [reflexivity|].
  destruct (run_closed ops (CloseAll c).1 Hno) as (R1 & R2 & R3);
    [reflexivity|reflexivity|].
  repeat split; auto.
  intros x ok Hin. apply R3 in Hin as [conn' Heq]. congruence.
Qed.

Lemma registry_closure_witness :
  ((Add 5%positive registry_12).2 = true <-> isClosed registry_12 = false) /\
  (isClosed registry_12 = false ->
   5%positive ∈ registered (Add 5%positive registry_12).1) /\
  (forall x, x ∈ (CloseAll registry_12).2 <-> x ∈ registered registry_12) /\
  NoDup (CloseAll registry_12).2 /\
  isClosed (CloseAll registry_12).1 = true /\
  registered (CloseAll registry_12).1 = ∅ /\
  isClosed (run ops_after_close (CloseAll registry_12).1).1 = true /\
  registered (run ops_after_close (CloseAll registry_12).1).1 = ∅ /\
  (forall x ok,
     AddReturned x ok ∈ (run ops_after_close (CloseAll registry_12).1).2 ->
     ok = false).
Proof.
  apply (registry_closure registry_12 5%positive ops_after_close).
  apply (bool_decide_unpack _). vm_compute. reflexivity.
Defined.

End RegistryProofs.

(** ** LRUConns *)

Module LRUProofs.

Import Go LRU.

Lemma CloseOldest_empty l :
  elems l = [] ->
  CloseOldest l =
  Panicked "runtime error: invalid memory address or nil pointer dereference".
Proof. intros H. unfold CloseOldest, Back. rewrite H. reflexivity. Qed.

(** On a list that is not empty the oldest element is detached and, when
    it holds a connection, that connection is closed. *)
Lemma CloseOldest_nonempty l front e :
  elems l = front ++ [e] ->
  CloseOldest l =
  Returned (ListRemove (elemId e) l,
            match Value e with Some c => [c] | None => [] end).
Proof.
  intros H. unfold CloseOldest, Back. rewrite H, last_snoc. simpl.
  destruct (Value e); reflexivity.
Qed.

Example S2_first : CloseOldest S2_touched = Returned (S2_after1, [connB]).
Proof. reflexivity. Qed.

Example S2_second : CloseOldest S2_after1 = Returned (S2_after2, [connC]).
Proof. reflexivity. Qed.

Example S2_third : CloseOldest S2_after2 = Returned (S2_after3, [connA]).
Proof. reflexivity. Qed.

(** C3 does not hold of the code: on an empty list [CloseOldest] does not
    return.  It dereferences the nil element that [Back] gave it, both on
    a fresh [LRUConns] and as the final call of scenario S2. *)
Theorem CloseOldest_empty_list_panics :
  elems NewLRUConns = [] /\
  CloseOldest NewLRUConns =
    Panicked "runtime error: invalid memory address or nil pointer dereference" /\
  elems S2_after3 = [] /\
  CloseOldest S2_after3 =
    Panicked "runtime error: invalid memory address or nil pointer dereference".
Proof. repeat split; reflexivity. Qed.

(** [Touch] on the entry that [Add] returned puts its element first for
    as long as the element is in the list. *)
Lemma MoveToFront_head e l x :
  List.find (fun y => Nat.eqb (elemId y) e) (elems l) = Some x ->
  head (elems (MoveToFront e l)) = Some x /\ elemId x = e.
Proof.
  intros H. unfold MoveToFront. rewrite H. simpl. split; [reflexivity|].
  apply List.find_some in H as [_ H]. by apply Nat.eqb_eq in H.
Qed.

Lemma MoveToFront_absent e l :
  List.find (fun y => Nat.eqb (elemId y) e) (elems l) = None ->
  MoveToFront e l = l.
Proof. intros H. unfold MoveToFront. by rewrite H. Qed.

End LRUProofs.

(** ** ActivityMonitoredConn *)

Module ActivityProofs.

Import Go Activity.
Local Open Scope Z_scope.

(** An I/O error leaves everything as it was. *)
Lemma Write_error conn n e w : Write conn (n, Some e) w = (conn, w, (n, Some e)).
Proof. reflexivity. Qed.

Lemma Read_error conn n e w : Read conn (n, Some e) w = (conn, w, (n, Some e)).
Proof. reflexivity. Qed.

(** A successful [Read] has the effects of a successful [Write] on a
    connection that is active on write. *)
Lemma Read_as_active_Write conn n w :
  activeOnWrite conn = true ->
  Read conn (n, None) w = Write conn (n, None) w.
Proof.
  intros H. unfold Read, Write. simpl. rewrite H. simpl.
  destruct (inactivityTimeout conn >? 0); reflexivity.
Qed.

(** C9: what a successful [Write] changes.  The result of the wrapped
    write is passed on; the LRU entry, when there is one, is touched in
    either mode; [lastActivityTime] becomes the clock reading only when
    [activeOnWrite], and the read deadline is re-armed to a clock reading
    plus the timeout only when [activeOnWrite] and the timeout is > 0. *)
Theorem Write_side_effects (conn : ActivityMonitoredConn) (n : Z) (w : World) :
  (Write conn (n, None) w).2 = (n, None) /\
  lrus (Write conn (n, None) w).1.2 =
    match lruEntry conn with
    | Some entry => LRU.Touch entry (lrus w)
    | None => lrus w
    end /\
  lastActivityTime (Write conn (n, None) w).1.1 =
    (if activeOnWrite conn then now w (ticks w) else lastActivityTime conn) /\
  readDeadline (Write conn (n, None) w).1.2 =
    (if activeOnWrite conn && (inactivityTimeout conn >? 0)
     then Some (now w (S (ticks w)) + inactivityTimeout conn)
     else readDeadline w) /\
  startTime (Write conn (n, None) w).1.1 = startTime conn.
Proof.
  unfold Write. simpl.
  destruct (activeOnWrite conn); simpl;
    destruct (inactivityTimeout conn >? 0); simpl;
    destruct (lruEntry conn); simpl; repeat split; reflexivity.
Qed.

End ActivityProofs.

(** ** ResumeDownload *)

Module DownloadProofs.

Import Download.
Local Open Scope Z_scope.

Lemma append_inj_r (s a b : string) : s +:+ a = s +:+ b -> a = b.
Proof. induction s as [|c s IH]; [auto|]. intros H. injection H as H. auto. Qed.

Lemma part_neq_etag T : T +:+ ".part" ≠ T +:+ ".part.etag".
Proof. intros H. apply append_inj_r in H. discriminate. Qed.

Lemma Size_OpenFile name fs : Size name (OpenFile name fs) = Size name fs.
Proof.
  unfold Size, OpenFile. destruct (fs !! name) eqn:E; [by rewrite E|].
  by rewrite lookup_insert_eq.
Qed.

Lemma OpenFile_other name other fs :
  name ≠ other -> OpenFile name fs !! other = fs !! other.
Proof.
  intros H. unfold OpenFile. destruct (fs !! name); [reflexivity|].
  by rewrite lookup_insert_ne.
Qed.

Lemma OpenFile_same name fs :
  OpenFile name fs !! name = Some (default ""%string (fs !! name)).
Proof.
  unfold OpenFile. destruct (fs !! name) eqn:E; simpl; [assumption|].
  by rewrite lookup_insert_eq.
Qed.

Section WithContextError.

Variable ContextError : error -> error.

(** C8: the request handed to the client is a GET whose Range header is
    bytes=S- for the size S of the partial file; it has If-Match, with the
    content of the stored ETag file, exactly when S > 0; it has
    If-None-Match, with the hint, exactly when S = 0 and the hint is not
    empty; so never both. *)
Theorem request_headers (env : Env) (fs : Files)
    (requestUrl downloadFilename ifNoneMatchETag : string) (req : Request) :
  sent (ResumeDownload ContextError env fs requestUrl downloadFilename
          ifNoneMatchETag) = Some req ->
  let S := Size (downloadFilename +:+ ".part") fs in
  Method req = "GET"%string /\
  URL req = requestUrl /\
  HeaderValues "Range" (ReqHeader req) = ["bytes=" +:+ pretty S +:+ "-"] /\
  (HeaderValues "If-Match" (ReqHeader req) ≠ [] <-> S > 0) /\
  (S > 0 ->
   exists etag, fs !! (downloadFilename +:+ ".part.etag") = Some etag /\
                HeaderValues "If-Match" (ReqHeader req) = [etag]) /\
  (HeaderValues "If-None-Match" (ReqHeader req) ≠ [] <->
   S = 0 /\ ifNoneMatchETag ≠ ""%string) /\
  (HeaderValues "If-None-Match" (ReqHeader req) ≠ [] ->
   HeaderValues "If-None-Match" (ReqHeader req) = [ifNoneMatchETag]) /\
  ~ (HeaderValues "If-Match" (ReqHeader req) ≠ [] /\
     HeaderValues "If-None-Match" (ReqHeader req) ≠ []).
Proof.
  intros Hsent S.
  unfold ResumeDownload in Hsent.
  destruct (openFault env); [discriminate|].
  destruct (statFault env); [discriminate|].
  rewrite Size_OpenFile in Hsent. fold S in Hsent.
  assert (Hsize : 0 <= S) by (unfold S, Size; destruct (fs !! _); lia).
  destruct (Z.gtb_spec S 0) as [Hpos|Hzero].
  - unfold ReadFile in Hsent.
    rewrite OpenFile_other in Hsent by apply part_neq_etag.
    destruct (readFault env); [discriminate|].
    destruct (fs !! (downloadFilename +:+ ".part.etag")) as [etag|] eqn:Hetag;
      [|discriminate].
    destruct (newRequestFault env requestUrl); [discriminate|].
    assert (Hreq : req = mkRequest "GET" requestUrl
              (HeaderAdd "If-Match" etag
                 (HeaderAdd "Range" ("bytes=" +:+ pretty S +:+ "-") []))).
    { repeat case_match; simpl in Hsent; congruence. }
    subst req. simpl.
    assert (HR : HeaderValues "Range"
              (HeaderAdd "If-Match" etag
                 (HeaderAdd "Range" ("bytes=" +:+ pretty S +:+ "-") []))
            = ["bytes=" +:+ pretty S +:+ "-"]) by reflexivity.
    assert (HM : HeaderValues "If-Match"
              (HeaderAdd "If-Match" etag
                 (HeaderAdd "Range" ("bytes=" +:+ pretty S +:+ "-") []))
            = [etag]) by reflexivity.
    assert (HN : HeaderValues "If-None-Match"
              (HeaderAdd "If-Match" etag
                 (HeaderAdd "Range" ("bytes=" +:+ pretty S +:+ "-") []))
            = []) by reflexivity.
    rewrite HR, HM, HN.
    repeat split; try done; try lia; eauto.
    + intros [_ H]. done.
  - destruct (newRequestFault env requestUrl); [discriminate|].
    assert (HS0 : S = 0) by lia.
    destruct (decide (ifNoneMatchETag ≠ ""%string)) as [Hhint|Hhint].
    + assert (Hreq : req = mkRequest "GET" requestUrl
                (HeaderAdd "If-None-Match" ifNoneMatchETag
                   (HeaderAdd "Range" ("bytes=" +:+ pretty S +:+ "-") []))).
      { repeat case_match; simpl in Hsent; congruence. }
      subst req. simpl.
      assert (HR : HeaderValues "Range"
                (HeaderAdd "If-None-Match" ifNoneMatchETag
                   (HeaderAdd "Range" ("bytes=" +:+ pretty S +:+ "-") []))
              = ["bytes=" +:+ pretty S +:+ "-"]) by reflexivity.
      assert (HM : HeaderValues "If-Match"
                (HeaderAdd "If-None-Match" ifNoneMatchETag
                   (HeaderAdd "Range" ("bytes=" +:+ pretty S +:+ "-") []))
              = []) by reflexivity.
      assert (HN : HeaderValues "If-None-Match"
                (HeaderAdd "If-None-Match" ifNoneMatchETag
                   (HeaderAdd "Range" ("bytes=" +:+ pretty S +:+ "-") []))
              = [ifNoneMatchETag]) by reflexivity.
      rewrite HR, HM, HN.
      repeat split; try done; try lia.
      intros [H _]. done.
    + assert (Hreq : req = mkRequest "GET" requestUrl
                (HeaderAdd "Range" ("bytes=" +:+ pretty S +:+ "-") [])).
      { repeat case_match; simpl in Hsent; congruence. }
      subst req. simpl.
      assert (HR : HeaderValues "Range"
                (HeaderAdd "Range" ("bytes=" +:+ pretty S +:+ "-") [])
              = ["bytes=" +:+ pretty S +:+ "-"]) by reflexivity.
      assert (HM : HeaderValues "If-Match"
                (HeaderAdd "Range" ("bytes=" +:+ pretty S +:+ "-") [])
              = []) by reflexivity.
      assert (HN : HeaderValues "If-None-Match"
                (HeaderAdd "Range" ("bytes=" +:+ pretty S +:+ "-") [])
              = []) by reflexivity.
      rewrite HR, HM, HN.
      repeat split; try done; try lia.
      * intros [_ H]. done.
      * intros [H _]. done.
Qed.

(** C7: a response whose status is none of 206, 416, 412 and 304 makes
    the call return 0 bytes, no ETag and an error; the files are as they
    were once the partial file had been opened, so no body byte was
    copied into it and no ETag file was written. *)
Theorem unexpected_status_is_error (env : Env) (fs : Files)
    (requestUrl downloadFilename ifNoneMatchETag : string) (resp : Response) :
  received (ResumeDownload ContextError env fs requestUrl downloadFilename
              ifNoneMatchETag) = Some resp ->
  StatusCode resp ≠ 206 ->
  StatusCode resp ≠ 416 ->
  StatusCode resp ≠ 412 ->
  StatusCode resp ≠ 304 ->
  let r := ResumeDownload ContextError env fs requestUrl downloadFilename
             ifNoneMatchETag in
  n r = 0 /\
  responseETag r = ""%string /\
  err r = Some (ContextError ("unexpected response status code: " +:+
                              pretty (StatusCode resp))) /\
  files r = OpenFile (downloadFilename +:+ ".part") fs /\
  files r !! (downloadFilename +:+ ".part") =
    Some (default ""%string (fs !! (downloadFilename +:+ ".part"))) /\
  files r !! (downloadFilename +:+ ".part.etag") =
    fs !! (downloadFilename +:+ ".part.etag").
Proof.
  intros Hrecv H206 H416 H412 H304 r.
  assert (Hbad :
    bool_decide (StatusCode resp ≠ StatusPartialContent) &&
    bool_decide (StatusCode resp ≠ StatusRequestedRangeNotSatisfiable) &&
    bool_decide (StatusCode resp ≠ StatusPreconditionFailed) &&
    bool_decide (StatusCode resp ≠ StatusNotModified) = true).
  { unfold StatusPartialContent, StatusRequestedRangeNotSatisfiable,
      StatusPreconditionFailed, StatusNotModified.
    rewrite !andb_true_iff, !bool_decide_eq_true. auto. }
  assert (Hfiles : files r = OpenFile (downloadFilename +:+ ".part") fs /\
                   n r = 0 /\ responseETag r = ""%string /\
                   err r = Some (ContextError
                     ("unexpected response status code: " +:+
                      pretty (StatusCode resp)))).
  { subst r. unfold ResumeDownload in *.
    destruct (openFault env); [discriminate|].
    destruct (statFault env); [discriminate|].
    destruct (if Size _ _ >? 0 then _ else _) as [e|partialETag];
      [discriminate|].
    destruct (newRequestFault env requestUrl); [discriminate|].
    destruct (Do env _) as [e|response]; [discriminate|].
    destruct (bool_decide (StatusCode response ≠ StatusPartialContent) &&
              bool_decide (StatusCode response ≠ StatusRequestedRangeNotSatisfiable) &&
              bool_decide (StatusCode response ≠ StatusPreconditionFailed) &&
              bool_decide (StatusCode response ≠ StatusNotModified)) eqn:Hst.
    - simpl in Hrecv. inversion Hrecv; subst. auto.
    - assert (response = resp) as ->.
      { repeat case_match; simpl in Hrecv; by inversion Hrecv. }
      rewrite Hbad in Hst. discriminate. }
  destruct Hfiles as (Hf & Hn & He & Herr).
  repeat split; try assumption.
  - rewrite Hf. apply OpenFile_same.
  - rewrite Hf. apply OpenFile_other, part_neq_etag.
Qed.

End WithContextError.

Lemma unexpected_status_is_error_witness :
  let r := ResumeDownload ContextError_id env_status_200 files_partial
             "https://example.org/upgrade" "upgrade" "" in
  n r = 0 /\
  responseETag r = ""%string /\
  err r = Some ("unexpected response status code: " +:+ pretty 200) /\
  files r = OpenFile ("upgrade" +:+ ".part") files_partial /\
  files r !! ("upgrade" +:+ ".part") =
    Some (default ""%string (files_partial !! ("upgrade" +:+ ".part"))) /\
  files r !! ("upgrade" +:+ ".part.etag") =
    files_partial !! ("upgrade" +:+ ".part.etag").
Proof.
  apply (unexpected_status_is_error ContextError_id env_status_200 files_partial
           "https://example.org/upgrade" "upgrade" "" response_200);
    [reflexivity|vm_compute; discriminate..].
Defined.

Lemma request_headers_witness :
  let req := mkRequest "GET" "https://example.org/upgrade"
               [("Range", "bytes=3-"); ("If-Match", "v1")]%string in
  let S := Size ("upgrade" +:+ ".part") files_partial in
  Method req = "GET"%string /\
  URL req = "https://example.org/upgrade"%string /\
  HeaderValues "Range" (ReqHeader req) = ["bytes=" +:+ pretty S +:+ "-"] /\
  (HeaderValues "If-Match" (ReqHeader req) ≠ [] <-> S > 0) /\
  (S > 0 ->
   exists etag, files_partial !! ("upgrade" +:+ ".part.etag") = Some etag /\
                HeaderValues "If-Match" (ReqHeader req) = [etag]) /\
  (HeaderValues "If-None-Match" (ReqHeader req) ≠ [] <->
   S = 0 /\ ""%string ≠ ""%string) /\
  (HeaderValues "If-None-Match" (ReqHeader req) ≠ [] ->
   HeaderValues "If-None-Match" (ReqHeader req) = [""%string]) /\
  ~ (HeaderValues "If-Match" (ReqHeader req) ≠ [] /\
     HeaderValues "If-None-Match" (ReqHeader req) ≠ []).
Proof.
  apply (request_headers ContextError_id env_status_200 files_partial
           "https://example.org/upgrade" "upgrade" "").
  reflexivity.
Defined.

Example resume_sends_range_and_if_match :
  sent (ResumeDownload ContextError_id env_206 files_partial
          "https://example.org/upgrade" "upgrade" "v0") =
  Some (mkRequest "GET" "https://example.org/upgrade"
          [("Range", "bytes=3-"); ("If-Match", "v1")]%string).
Proof. reflexivity. Qed.

Example resume_completes :
  let r := ResumeDownload ContextError_id env_206 files_partial
             "https://example.org/upgrade" "upgrade" "v0" in
  n r = 4 /\ responseETag r = "v1"%string /\ err r = None /\
  files r = {[ "upgrade"%string := "abcdefg"%string ]}.
Proof. vm_compute. repeat split; reflexivity. Qed.

End DownloadProofs.

(** ** RunServices *)

Module SupervisorProofs.

Import Supervisor.
Local Open Scope Z_scope.

Example failure_while_parked_is_reported :
  run cfg_tunnel_only schedule_failure_while_parked init =
  Some (mkState MReturned (Some "tunnel server failed"%string)
          WNotSpawned WExited LNotSpawned 0 true [] []
          [mkPost Tunnel (Some "tunnel server failed"%string) true]).
Proof. reflexivity. Qed.

(** C1 does not hold of the code: the channel has no buffer, and the only
    failure of the run, posted while RunServices is inside Reload, is
    dropped; RunServices goes back to waiting with err still nil. *)
Theorem first_failure_dropped :
  errorsCapacity = 0%nat /\
  run cfg_tunnel_only schedule_failure_during_reload init =
  Some (mkState MParked None
          WNotSpawned WExited LNotSpawned 0 false [] []
          [mkPost Tunnel (Some "tunnel server failed"%string) false]).
Proof. split; reflexivity. Qed.

(** C2 does not hold of the code: RunServices has returned from
    waitGroup.Wait() while the load monitor is still in its loop. *)
Theorem monitor_not_joined :
  run cfg_with_monitor schedule_interrupt_with_monitor init =
  Some (mkState MReturned None
          WNotSpawned WExited LLoop 0 true [] []
          [mkPost Tunnel None false]) /\
  monitorLive LLoop = true.
Proof. split; reflexivity. Qed.

(** With no buffer, a post is delivered exactly when RunServices is
    blocked in its select. *)
Lemma post_delivered_iff_parked w e s :
  worker w s = WPost e ->
  exists s',
    stepPost w s = Some s' /\
    posts s' = posts s ++ [mkPost w e (bool_decide (main s = MParked))] /\
    (main s <> MParked -> err s' = err s /\ errors s' = errors s).
Proof.
  intros Hw. unfold stepPost. rewrite Hw.
  assert (Hm : main (set_worker w WDefer s) = main s) by (destruct w; reflexivity).
  rewrite Hm. destruct (decide (main s = MParked)) as [Hp|Hp].
  - rewrite (bool_decide_eq_true_2 _ Hp). eexists. split; [reflexivity|].
    destruct w; simpl; split; try reflexivity; contradiction.
  - rewrite (bool_decide_eq_false_2 _ Hp). simpl.
    eexists. split; [reflexivity|].
    destruct w; simpl; split; auto.
Qed.

Lemma counted_init : counted init.
Proof. unfold counted, spawnPhase. simpl. repeat split; congruence. Qed.

Ltac split_counts :=
  repeat match goal with
  | H : context [workerLive ?pc] |- _ => is_var pc; destruct pc; simpl in *
  | H : context [match ?pc with LStart => _ | _ => _ end] |- _ =>
    is_var pc; destruct pc; simpl in *
  end.

Ltac count_crush :=
  repeat case_match; simplify_eq; simpl in *;
  unfold liveCount, startingCount in *; simpl in *;
  intuition (subst; simpl in *; try congruence; try lia);
  split_counts; try congruence; lia.

(** Every step keeps the wait group counter in line with the goroutines. *)
Lemma counted_step cfg ev s s' :
  counted s -> step cfg ev s = Some s' -> counted s'.
Proof.
  unfold counted, spawnPhase.
  destruct s as [m e w t mo wg sb er pe po]. simpl.
  intros (Hwg & Hph & Hret) Hstep.
  destruct ev as [|c|wk we|wk|wk| | |sig]; simpl in Hstep.
  - unfold stepMain in Hstep. simpl in Hstep.
    destruct m, cfg as [[] []]; simpl in *; count_crush.
  - unfold stepTake in Hstep. simpl in Hstep.
    destruct m; try discriminate.
    destruct c as [[]|]; simpl in *; count_crush.
  - destruct wk; simpl in *; destruct m; count_crush.
  - unfold stepPost in Hstep.
    destruct wk; simpl in *; destruct m; count_crush.
  - destruct wk; simpl in *; destruct m; count_crush.
  - unfold stepMonitor in Hstep. simpl in Hstep.
    destruct mo; try discriminate; destruct m; count_crush.
  - destruct mo; try discriminate; destruct m; count_crush.
  - unfold stepDeliver in Hstep. simpl in Hstep.
    destruct m, sig; count_crush.
Qed.

Lemma counted_run cfg evs : forall s s',
  counted s -> run cfg evs s = Some s' -> counted s'.
Proof.
  induction evs as [|ev evs IH]; intros s s' Hs Hrun; simpl in Hrun.
  - congruence.
  - destruct (step cfg ev s) as [s1|] eqn:Hstep; [|discriminate].
    eauto using counted_step.
Qed.

(** The web server and tunnel server goroutines are joined: whenever
    RunServices has returned, the tunnel server goroutine has exited and
    the web server goroutine, if it was started, has too. *)
Lemma servers_joined cfg evs s :
  run cfg evs init = Some s ->
  main s = MReturned ->
  tunnel s = WExited /\ (web s = WExited \/ web s = WNotSpawned).
Proof.
  intros Hrun Hret.
  pose proof (counted_run cfg evs init s counted_init Hrun) as (Hwg & Hph & H0).
  specialize (H0 Hret). unfold spawnPhase in Hph. rewrite Hret in Hph.
  rewrite H0 in Hwg. unfold liveCount, startingCount in Hwg.
  destruct (tunnel s), (web s), (monitor s); simpl in Hwg;
    try lia; try congruence; auto.
Qed.

End SupervisorProofs.

(** ** Conns: sequences of operations *)

Module RegistryMore.

Import Go Registry RegistryProofs.

Lemma isClosed_Remove conn c : isClosed (Remove conn c) = isClosed c.
Proof. reflexivity. Qed.

Lemma registered_Remove conn c :
  registered (Remove conn c) = registered c ∖ {[conn]}.
Proof.
  unfold Remove, registered. simpl.
  destruct (conns c) as [m|]; simpl; [apply dom_delete_L|].
  apply set_eq. intros x. rewrite elem_of_difference, elem_of_empty. tauto.
Qed.

Lemma registered_Add_closed conn c :
  isClosed c = true -> (Add conn c).1 = c.
Proof. intros H. by rewrite Add_closed. Qed.

Lemma apply_Add conn c :
  apply (OpAdd conn) c = ((Add conn c).1, [AddReturned conn (Add conn c).2]).
Proof. simpl. by destruct (Add conn c). Qed.

(** One operation keeps "closed implies empty". *)
Lemma apply_closed_empty op c :
  (isClosed c = true -> registered c = ∅) ->
  isClosed (apply op c).1 = true -> registered (apply op c).1 = ∅.
Proof.
  intros Hinv. destruct op as [|conn|conn|];
    [cbn [apply]|rewrite apply_Add|cbn [apply]|cbn [apply]].
  - simpl. discriminate.
  - simpl. destruct (isClosed c) eqn:Hc.
    + rewrite Add_closed by assumption. simpl. auto.
    + unfold Add. rewrite Hc. simpl. congruence.
  - simpl. intros Hcl. rewrite registered_Remove, (Hinv Hcl).
    apply set_eq. intros x. rewrite elem_of_difference, elem_of_empty. tauto.
  - simpl. reflexivity.
Qed.

Lemma run_cons op ops c :
  run (op :: ops) c =
  ((run ops (apply op c).1).1, (apply op c).2 ++ (run ops (apply op c).1).2).
Proof.
  simpl. destruct (apply op c) as [c1 o1]. simpl.
  destruct (run ops c1) as [c2 o2]. reflexivity.
Qed.

Lemma run_closed_empty ops : forall c,
  (isClosed c = true -> registered c = ∅) ->
  isClosed (run ops c).1 = true -> registered (run ops c).1 = ∅.
Proof.
  induction ops as [|op ops IH]; intros c Hinv; [exact Hinv|].
  rewrite run_cons. simpl. apply IH. by apply apply_closed_empty.
Qed.

(** X1: over any sequence of operations on a fresh registry, a closed
    registry holds no connection. *)
Theorem closed_registry_is_empty (ops : list Op) :
  isClosed (run ops zero).1 = true -> registered (run ops zero).1 = ∅.
Proof. apply run_closed_empty. discriminate. Qed.

Lemma closed_registry_is_empty_witness :
  registered (run [OpAdd 1%positive; OpCloseAll; OpReset; OpAdd 2%positive;
                   OpCloseAll; OpAdd 3%positive] zero).1 = ∅.
Proof.
  apply (closed_registry_is_empty
           [OpAdd 1%positive; OpCloseAll; OpReset; OpAdd 2%positive;
            OpCloseAll; OpAdd 3%positive]).
  reflexivity.
Defined.

(** What one operation may leave registered, and what it may close. *)
Lemma apply_registered op c x :
  x ∈ registered (apply op c).1 ->
  x ∈ registered c \/ AddReturned x true ∈ (apply op c).2.
Proof.
  destruct op as [|conn|conn|];
    [cbn [apply]|rewrite apply_Add|cbn [apply]|cbn [apply]].
  - simpl. set_solver.
  - simpl. destruct (isClosed c) eqn:Hc.
    + rewrite Add_closed by assumption. simpl. auto.
    + rewrite Add_registers by assumption.
      assert (Hok : (Add conn c).2 = true) by (by apply Add_ok).
      rewrite Hok.
      rewrite elem_of_union, elem_of_singleton. intros [->|H]; [right|auto].
      apply list_elem_of_singleton. reflexivity.
  - simpl. rewrite registered_Remove, elem_of_difference. tauto.
  - simpl. set_solver.
Qed.

Lemma apply_closes op c pre x post :
  (apply op c).2 = pre ++ CloseInvoked x :: post ->
  x ∈ registered c.
Proof.
  destruct op as [|conn|conn|];
    [cbn [apply]|rewrite apply_Add|cbn [apply]|cbn [apply]].
  - simpl. intros H. by destruct pre.
  - simpl. intros H.
    destruct pre as [|? [|? ?]]; discriminate.
  - simpl. intros H. by destruct pre.
  - simpl. intros H.
    assert (Hin : CloseInvoked x ∈ CloseInvoked <$> range_keys (conns c)).
    { rewrite H. apply elem_of_app. right. apply list_elem_of_here. }
    apply list_elem_of_fmap in Hin as [y [Hy Hin]]. inversion Hy; subst.
    apply range_keys_registered in Hin. exact Hin.
Qed.

Lemma run_closes ops : forall c pre x post,
  (run ops c).2 = pre ++ CloseInvoked x :: post ->
  x ∈ registered c \/ AddReturned x true ∈ pre.
Proof.
  induction ops as [|op ops IH]; intros c pre x post Hrun.
  - simpl in Hrun. by destruct pre.
  - rewrite run_cons in Hrun. simpl in Hrun.
    apply app_eq_app in Hrun as [l [[H1 H2]|[H1 H2]]].
    + (* the close is among the observations of [op], or first of the rest *)
      destruct l as [|o l].
      * rewrite app_nil_r in H1. simpl in H2. subst pre.
        symmetry in H2. apply (IH _ []) in H2 as [H2|H2]; [|inversion H2].
        apply apply_registered in H2 as [H2|H2]; auto.
      * simpl in H2. inversion H2; subst o.
        left. eapply apply_closes. rewrite H1.
        instantiate (1 := l). instantiate (1 := pre). reflexivity.
    + subst pre. apply IH in H2 as [H2|H2].
      * apply apply_registered in H2 as [H2|H2]; auto.
        right. apply elem_of_app. auto.
      * right. apply elem_of_app. auto.
Qed.

(** X2: [Close] is invoked only on a connection that an earlier [Add]
    accepted. *)
Theorem close_only_after_add (ops : list Op) (pre post : list Obs) (conn : Conn) :
  (run ops zero).2 = pre ++ CloseInvoked conn :: post ->
  AddReturned conn true ∈ pre.
Proof.
  intros H. apply run_closes in H as [H|H]; [|assumption].
  unfold registered, zero in H. simpl in H. set_solver.
Qed.

Lemma close_only_after_add_witness :
  AddReturned 1%positive true ∈ [AddReturned 1%positive true].
Proof.
  apply (close_only_after_add [OpAdd 1%positive; OpCloseAll]
           [AddReturned 1%positive true] [] 1%positive).
  reflexivity.
Defined.

(** X3: after [CloseAll] and until a [Reset], no operation invokes
    [Close] again; a second [CloseAll] closes nothing. *)
Theorem no_close_after_CloseAll (c : Conns) (ops : list Op) (conn : Conn) :
  OpReset ∉ ops ->
  CloseInvoked conn ∉ (run ops (CloseAll c).1).2.
Proof.
  intros Hno Hin.
  destruct (run_closed ops (CloseAll c).1 Hno) as (_ & _ & Hobs);
    [reflexivity|reflexivity|].
  apply Hobs in Hin as [x Hx]. discriminate.
Qed.

Lemma no_close_after_CloseAll_witness :
  CloseInvoked 1%positive ∉
    (run [OpCloseAll; OpAdd 1%positive; OpCloseAll] (CloseAll registry_12).1).2.
Proof.
  apply (no_close_after_CloseAll registry_12
           [OpCloseAll; OpAdd 1%positive; OpCloseAll] 1%positive).
  apply (bool_decide_unpack _). vm_compute. reflexivity.
Defined.

(** X4: on an open registry, removing a connection that was just
    added and was not registered before restores the registered set, and
    removing it once more changes nothing. *)
Theorem Remove_undoes_Add (c : Conns) (conn : Conn) :
  isClosed c = false ->
  conn ∉ registered c ->
  (Add conn c).2 = true /\
  conn ∈ registered (Add conn c).1 /\
  registered (Remove conn (Add conn c).1) = registered c /\
  Remove conn (Remove conn (Add conn c).1) = Remove conn (Add conn c).1.
Proof.
  intros Hopen Hfresh.
  split; [by apply Add_ok|].
  split.
  { rewrite Add_registers by assumption.
    apply elem_of_union. left. by apply elem_of_singleton. }
  split.
  - rewrite registered_Remove, Add_registers by assumption.
    apply set_eq. intros x.
    rewrite elem_of_difference, elem_of_union, elem_of_singleton.
    split; [intros [[->|Hx] Hne]; [contradiction|assumption]|].
    intros Hx. split; [by right|]. intros ->. contradiction.
  - unfold Remove, Add. rewrite Hopen. simpl. f_equal. f_equal.
    apply delete_id. apply lookup_delete_eq.
Qed.

Lemma Remove_undoes_Add_witness :
  (Add 7%positive registry_12).2 = true /\
  7%positive ∈ registered (Add 7%positive registry_12).1 /\
  registered (Remove 7%positive (Add 7%positive registry_12).1) =
    registered registry_12 /\
  Remove 7%positive (Remove 7%positive (Add 7%positive registry_12).1) =
    Remove 7%positive (Add 7%positive registry_12).1.
Proof.
  apply (Remove_undoes_Add registry_12 7%positive).
  - reflexivity.
  - apply (bool_decide_unpack _). vm_compute. reflexivity.
Defined.

End RegistryMore.

(** ** LRUConns: order of eviction *)

Module LRUMore.

Import Go LRU LRUOrder LRUProofs.

Lemma filter_other_id (e : nat) (l : list Element) :
  e ∉ elemId <$> l -> filter (fun y => elemId y ≠ e) l = l.
Proof.
  induction l as [|x l IH]; [reflexivity|]. rewrite fmap_cons, not_elem_of_cons.
  intros [Hx Hl]. rewrite filter_cons_True by congruence. by rewrite IH.
Qed.

Lemma filter_id_absent (e : nat) (l : list Element) :
  e ∉ elemId <$> filter (fun y => elemId y ≠ e) l.
Proof.
  intros H. apply list_elem_of_fmap in H as [x [-> Hx]].
  apply list_elem_of_filter in Hx as [Hx _]. congruence.
Qed.

Lemma find_absent (e : nat) (l : list Element) :
  e ∉ elemId <$> l -> List.find (fun y => Nat.eqb (elemId y) e) l = None.
Proof.
  induction l as [|x l IH]; [reflexivity|]. rewrite fmap_cons, not_elem_of_cons.
  intros [Hx Hl]. simpl. destruct (Nat.eqb_spec (elemId x) e); [congruence|auto].
Qed.

Lemma find_present (x : Element) (l : list Element) :
  NoDup (elemId <$> l) -> x ∈ l ->
  List.find (fun y => Nat.eqb (elemId y) (elemId x)) l = Some x.
Proof.
  induction l as [|y l IH]; intros Hnd Hin; [inversion Hin|].
  rewrite fmap_cons in Hnd. apply NoDup_cons in Hnd as [Hy Hnd].
  simpl. apply elem_of_cons in Hin as [->|Hin].
  - by rewrite Nat.eqb_refl.
  - destruct (Nat.eqb_spec (elemId y) (elemId x)) as [Heq|Hne]; [|auto].
    exfalso. apply Hy. rewrite Heq. apply list_elem_of_fmap. eauto.
Qed.

Lemma filter_distinct_perm (x : Element) (l : list Element) :
  NoDup (elemId <$> l) -> x ∈ l ->
  x :: filter (fun y => elemId y ≠ elemId x) l ≡ₚ l.
Proof.
  induction l as [|y l IH]; intros Hnd Hin; [inversion Hin|].
  rewrite fmap_cons in Hnd. apply NoDup_cons in Hnd as [Hy Hnd].
  apply elem_of_cons in Hin as [->|Hin].
  - rewrite filter_cons_False by (intros H; by apply H).
    by rewrite filter_other_id.
  - assert (elemId y ≠ elemId x).
    { intros Heq. apply Hy. rewrite Heq. apply list_elem_of_fmap. eauto. }
    rewrite filter_cons_True by assumption.
    rewrite Permutation_swap. by rewrite IH.
Qed.

(** The operations keep element identities distinct. *)
Lemma distinct_filter e l :
  distinct l -> distinct (ListRemove e l).
Proof.
  intros [Hnd Hlt]. split; simpl.
  - apply (NoDup_fmap_2_strong _).
    + intros x y Hx Hy Heq.
      apply list_elem_of_filter in Hx as [_ Hx].
      apply list_elem_of_filter in Hy as [_ Hy].
      apply list_elem_of_lookup in Hx as [i Hi].
      apply list_elem_of_lookup in Hy as [j Hj].
      assert (i = j).
      { eapply NoDup_lookup; [exact Hnd| |];
          rewrite list_lookup_fmap; [rewrite Hi|rewrite Hj]; simpl;
          [reflexivity|by rewrite Heq]. }
      subst j. congruence.
    + apply NoDup_filter. eapply NoDup_fmap_1. exact Hnd.
  - apply Forall_forall. intros x Hx. apply list_elem_of_filter in Hx as [_ Hx].
    rewrite Forall_forall in Hlt. auto.
Qed.

Lemma distinct_New : distinct NewLRUConns.
Proof. split; simpl; constructor. Qed.

Lemma distinct_Add self conn l : distinct l -> distinct (Add self conn l).1.
Proof.
  intros [Hnd Hlt]. split; simpl.
  - apply NoDup_cons. split; [|assumption].
    intros Hin. apply list_elem_of_fmap in Hin as [y [Hy Hin]].
    rewrite Forall_forall in Hlt. specialize (Hlt y Hin). lia.
  - constructor; [simpl; lia|]. eapply Forall_impl; [exact Hlt|]. simpl. lia.
Qed.

Lemma find_some_id e (l : list Element) x :
  List.find (fun y => Nat.eqb (elemId y) e) l = Some x -> x ∈ l /\ elemId x = e.
Proof.
  intros H. apply List.find_some in H as [Hin He].
  split; [by apply list_elem_of_In|by apply Nat.eqb_eq].
Qed.

Lemma distinct_MoveToFront e l : distinct l -> distinct (MoveToFront e l).
Proof.
  intros [Hnd Hlt]. unfold MoveToFront.
  destruct (List.find _ (elems l)) as [x|] eqn:Hf; [|by split].
  apply find_some_id in Hf as [Hin <-].
  pose proof (filter_distinct_perm x (elems l) Hnd Hin) as Hp.
  split; simpl.
  - change (NoDup (elemId <$> x :: filter (fun y => elemId y ≠ elemId x) (elems l))).
    by rewrite Hp.
  - change (Forall (fun y => (elemId y < nextId l)%nat)
              (x :: filter (fun y => elemId y ≠ elemId x) (elems l))).
    by rewrite Hp.
Qed.

Lemma CloseOldest_returned l l' closed :
  CloseOldest l = Returned (l', closed) ->
  exists front x, elems l = front ++ [x] /\
                  l' = ListRemove (elemId x) l /\ closed = held x.
Proof.
  intros H. destruct (elems l) as [|y ys] eqn:He using rev_ind.
  - rewrite CloseOldest_empty in H by assumption. discriminate.
  - clear IHys. rewrite (CloseOldest_nonempty l ys y He) in H.
    inversion H; subst. eauto.
Qed.

Lemma reachable_distinct l : reachable l -> distinct l.
Proof.
  induction 1 as [|l self conn _ IH|l e _ IH|l e _ IH|l l' closed _ IH Hc].
  - apply distinct_New.
  - by apply distinct_Add.
  - by apply distinct_MoveToFront.
  - by apply distinct_filter.
  - apply CloseOldest_returned in Hc as (front & x & _ & -> & _).
    by apply distinct_filter.
Qed.

Lemma MoveToFront_gone e l :
  e ∉ elemId <$> elems l -> MoveToFront e l = l.
Proof. intros H. apply MoveToFront_absent. by apply find_absent. Qed.

Lemma ListRemove_gone e l :
  e ∉ elemId <$> elems l -> ListRemove e l = l.
Proof.
  intros H. unfold ListRemove. rewrite filter_other_id by assumption.
  by destruct l.
Qed.

Lemma ListRemove_absent e l : e ∉ elemId <$> elems (ListRemove e l).
Proof. apply filter_id_absent. Qed.

(** X5: [Touch] on the entry of an element that is in the list puts
    that element first and leaves the others as they were, in their
    order; no other list is affected. *)
Theorem Touch_moves_to_front (h : Heap) (r : nat) (l : LRUConns) (x : Element) :
  h !! r = Some l ->
  reachable l ->
  x ∈ elems l ->
  exists l',
    Touch (mkLRUConnsEntry (Some r) (Some (elemId x))) h !! r = Some l' /\
    head (elems l') = Some x /\
    elems l' ≡ₚ elems l /\
    tail (elems l') = filter (fun y => elemId y ≠ elemId x) (elems l) /\
    forall r', r' ≠ r ->
      Touch (mkLRUConnsEntry (Some r) (Some (elemId x))) h !! r' = h !! r'.
Proof.
  intros Hr Hreach Hin.
  destruct (reachable_distinct l Hreach) as [Hnd _].
  exists (MoveToFront (elemId x) l). unfold Touch. simpl.
  split; [by rewrite lookup_alter_eq, Hr|].
  unfold MoveToFront. rewrite (find_present x (elems l) Hnd Hin). simpl.
  split; [reflexivity|]. split; [by apply filter_distinct_perm|].
  split; [reflexivity|].
  intros r' Hne. by rewrite lookup_alter_ne.
Qed.

(** X6: after [Remove] on an entry, [Touch] and [Remove] on it have
    no effect, and its element is in the list no more. *)
Theorem removed_entry_is_inert (h : Heap) (entry : LRUConnsEntry) :
  Touch entry (EntryRemove entry h) = EntryRemove entry h /\
  EntryRemove entry (EntryRemove entry h) = EntryRemove entry h /\
  forall r e l,
    lruConns entry = Some r -> element entry = Some e ->
    EntryRemove entry h !! r = Some l ->
    e ∉ elemId <$> elems l.
Proof.
  unfold Touch, EntryRemove.
  destruct (lruConns entry) as [r|], (element entry) as [e|];
    try (repeat split; try reflexivity; intros; discriminate).
  split; [|split].
  - apply map_eq. intros i. destruct (decide (r = i)) as [->|Hne].
    + rewrite !lookup_alter_eq.
      destruct (h !! i) as [l|]; [|reflexivity]. simpl. f_equal.
      apply MoveToFront_gone, ListRemove_absent.
    + by rewrite !lookup_alter_ne.
  - apply map_eq. intros i. destruct (decide (r = i)) as [->|Hne].
    + rewrite !lookup_alter_eq.
      destruct (h !! i) as [l|]; [|reflexivity]. simpl. f_equal.
      apply ListRemove_gone, ListRemove_absent.
    + by rewrite !lookup_alter_ne.
  - intros r0 e0 l H1 H2 Hl. inversion H1; inversion H2; subst.
    rewrite lookup_alter_eq in Hl.
    destruct (h !! r0) as [l0|]; [|discriminate]. simpl in Hl.
    inversion Hl; subst. apply ListRemove_absent.
Qed.

(** X7: on a list that is not empty [CloseOldest] returns, closes the
    connection of the last element and removes that element only; the
    entry of the removed element is inert afterwards. *)
Theorem CloseOldest_removes_oldest (l : LRUConns) (front : list Element) (x : Element) :
  reachable l ->
  elems l = front ++ [x] ->
  exists l',
    CloseOldest l = Returned (l', held x) /\
    elems l' = front /\
    nextId l' = nextId l /\
    MoveToFront (elemId x) l' = l' /\
    ListRemove (elemId x) l' = l'.
Proof.
  intros Hreach He.
  destruct (reachable_distinct l Hreach) as [Hnd _].
  exists (ListRemove (elemId x) l).
  split; [by apply (CloseOldest_nonempty l front x)|].
  assert (Hfront : elemId x ∉ elemId <$> front).
  { rewrite He, fmap_app in Hnd. apply NoDup_app in Hnd as (_ & Hd & _).
    intros Hin. apply (Hd _ Hin). simpl. apply list_elem_of_here. }
  split.
  - simpl. rewrite He, filter_app, filter_other_id by assumption.
    rewrite filter_cons_False by (intros H; by apply H).
    by rewrite filter_nil, app_nil_r.
  - split; [reflexivity|].
    split; [apply MoveToFront_gone|apply ListRemove_gone]; apply ListRemove_absent.
Qed.

Lemma ListRemove_last l front x :
  distinct l -> elems l = front ++ [x] ->
  ListRemove (elemId x) l = mkLRUConns front (nextId l) /\
  distinct (mkLRUConns front (nextId l)).
Proof.
  intros [Hnd Hlt] He.
  assert (Hfront : elemId x ∉ elemId <$> front).
  { rewrite He, fmap_app in Hnd. apply NoDup_app in Hnd as (_ & Hdis & _).
    intros Hin. apply (Hdis _ Hin). simpl. apply list_elem_of_here. }
  split.
  - unfold ListRemove. f_equal.
    rewrite He, filter_app, filter_other_id by assumption.
    rewrite filter_cons_False by (intros H; by apply H).
    by rewrite filter_nil, app_nil_r.
  - split; simpl.
    + rewrite He, fmap_app in Hnd. by apply NoDup_app in Hnd as (? & _ & _).
    + rewrite He in Hlt. by apply Forall_app in Hlt as [? _].
Qed.

Lemma CloseOldestN_distinct n : forall l,
  distinct l -> length (elems l) = n ->
  CloseOldestN n l =
    Returned (mkLRUConns [] (nextId l), reverse (elems l) ≫= held) /\
  CloseOldestN (S n) l =
    Panicked "runtime error: invalid memory address or nil pointer dereference".
Proof.
  induction n as [|n IH]; intros l Hd Hlen.
  - destruct l as [[|? ?] nid]; [split; reflexivity|discriminate].
  - destruct (elems l) as [|x front _] eqn:He using rev_ind; [discriminate|].
    rewrite length_app in Hlen. simpl in Hlen.
    destruct (ListRemove_last l front x Hd He) as [Hl' Hd'].
    destruct (IH (mkLRUConns front (nextId l)) Hd') as [IH1 IH2];
      [simpl; lia|].
    split.
    + cbn [CloseOldestN]. rewrite (CloseOldest_nonempty l front x He). simpl.
      rewrite Hl', IH1. simpl. rewrite reverse_snoc. reflexivity.
    + change (CloseOldestN (S (S n)) l) with
        (r1 ← CloseOldest l; r2 ← CloseOldestN (S n) r1.1;
         Returned (r2.1, r1.2 ++ r2.2)).
      rewrite (CloseOldest_nonempty l front x He). simpl.
      rewrite Hl'. cbn [CloseOldestN] in IH2. rewrite IH2. reflexivity.
Qed.

(** X8: as many [CloseOldest] calls as the list has elements close
    the connections oldest first and leave the list empty; one call more
    panics. *)
Theorem drain_closes_oldest_first (l : LRUConns) :
  reachable l ->
  CloseOldestN (length (elems l)) l =
    Returned (mkLRUConns [] (nextId l), reverse (elems l) ≫= held) /\
  CloseOldestN (S (length (elems l))) l =
    Panicked "runtime error: invalid memory address or nil pointer dereference".
Proof.
  intros Hreach. apply CloseOldestN_distinct; [|reflexivity].
  by apply reachable_distinct.
Qed.

Lemma reachable_S2_added : reachable S2_added.
Proof. unfold S2_added. apply reach_Add, reach_Add, reach_Add, reach_New. Qed.

Lemma Touch_moves_to_front_witness :
  exists l',
    Touch (mkLRUConnsEntry (Some 0%nat) (Some (elemId (mkElement 0 (Some connA)))))
      {[ 0%nat := S2_added ]} !! 0%nat = Some l' /\
    head (elems l') = Some (mkElement 0 (Some connA)) /\
    elems l' ≡ₚ elems S2_added /\
    tail (elems l') =
      filter (fun y => elemId y ≠ elemId (mkElement 0 (Some connA)))
        (elems S2_added) /\
    forall r', r' ≠ 0%nat ->
      Touch (mkLRUConnsEntry (Some 0%nat) (Some (elemId (mkElement 0 (Some connA)))))
        {[ 0%nat := S2_added ]} !! r' =
      ({[ 0%nat := S2_added ]} : Heap) !! r'.
Proof.
  apply (Touch_moves_to_front {[ 0%nat := S2_added ]} 0 S2_added
           (mkElement 0 (Some connA))).
  - reflexivity.
  - apply reachable_S2_added.
  - simpl. do 2 apply list_elem_of_further. apply list_elem_of_here.
Defined.

Lemma CloseOldest_removes_oldest_witness :
  exists l',
    CloseOldest S2_added = Returned (l', held (mkElement 0 (Some connA))) /\
    elems l' = [mkElement 2 (Some connC); mkElement 1 (Some connB)] /\
    nextId l' = nextId S2_added /\
    MoveToFront (elemId (mkElement 0 (Some connA))) l' = l' /\
    ListRemove (elemId (mkElement 0 (Some connA))) l' = l'.
Proof.
  apply (CloseOldest_removes_oldest S2_added
           [mkElement 2 (Some connC); mkElement 1 (Some connB)]
           (mkElement 0 (Some connA))).
  - apply reachable_S2_added.
  - reflexivity.
Defined.

Lemma drain_closes_oldest_first_witness :
  CloseOldestN (length (elems S2_added)) S2_added =
    Returned (mkLRUConns [] (nextId S2_added), reverse (elems S2_added) ≫= held) /\
  CloseOldestN (S (length (elems S2_added))) S2_added =
    Panicked "runtime error: invalid memory address or nil pointer dereference".
Proof. apply (drain_closes_oldest_first S2_added), reachable_S2_added. Defined.

Example drain_S2_added :
  CloseOldestN 3 S2_added = Returned (mkLRUConns [] 3, [connA; connB; connC]).
Proof. reflexivity. Qed.

End LRUMore.

(** ** ActivityMonitoredConn: timing *)

Module ActivityMore.

Import Go Activity ActivityRuns.
Local Open Scope Z_scope.


(** What one operation does to the fields the timing depends on: either
    nothing, or it records the next clock reading and, with a timeout set,
    re-arms the deadline from the reading after that. *)
Lemma apply_cases op conn w :
  now (apply op conn w).2 = now w /\
  inactivityTimeout (apply op conn w).1 = inactivityTimeout conn /\
  activeOnWrite (apply op conn w).1 = activeOnWrite conn /\
  startTime (apply op conn w).1 = startTime conn /\
  ((lastActivityTime (apply op conn w).1 = lastActivityTime conn /\
    ticks (apply op conn w).2 = ticks w /\
    readDeadline (apply op conn w).2 = readDeadline w) \/
   (lastActivityTime (apply op conn w).1 = now w (ticks w) /\
    ((inactivityTimeout conn > 0 /\
      ticks (apply op conn w).2 = S (S (ticks w)) /\
      readDeadline (apply op conn w).2 =
        Some (now w (S (ticks w)) + inactivityTimeout conn)) \/
     (inactivityTimeout conn <= 0 /\
      ticks (apply op conn w).2 = S (ticks w) /\
      readDeadline (apply op conn w).2 = readDeadline w)))).
Proof.
  destruct op as [n [e|]|n [e|]]; unfold apply, Read, Write; simpl.
  - repeat split; auto.
  - destruct (Z.gtb_spec (inactivityTimeout conn) 0);
      destruct (lruEntry conn); simpl; repeat split; auto;
      right; (split; [reflexivity|]);
      first [left; repeat split; auto; lia | right; repeat split; auto; lia].
  - repeat split; auto.
  - destruct (activeOnWrite conn) eqn:Haow; simpl.
    + destruct (Z.gtb_spec (inactivityTimeout conn) 0);
        destruct (lruEntry conn); simpl; repeat split; auto;
        right; (split; [reflexivity|]);
        first [left; repeat split; auto; lia | right; repeat split; auto; lia].
    + destruct (lruEntry conn); simpl; repeat split; auto.
Qed.


Lemma run_frame ops : forall conn w,
  now (run ops conn w).2 = now w /\
  inactivityTimeout (run ops conn w).1 = inactivityTimeout conn /\
  activeOnWrite (run ops conn w).1 = activeOnWrite conn /\
  startTime (run ops conn w).1 = startTime conn /\
  (ticks w <= ticks (run ops conn w).2)%nat.
Proof.
  induction ops as [|op ops IH]; intros conn w; simpl; [auto 10|].
  destruct (apply_cases op conn w) as (A1 & A2 & A3 & A4 & A5).
  destruct (IH (apply op conn w).1 (apply op conn w).2) as (B1 & B2 & B3 & B4 & B5).
  repeat split; try congruence.
  destruct A5 as [(_ & T & _)|(_ & [(_ & T & _)|(_ & T & _)])]; lia.
Qed.

(** The last activity is always a clock reading taken at or after the one
    that gave the start time. *)
Lemma run_readings ops : forall conn w k0 k,
  (k0 <= k < ticks w)%nat ->
  startTime conn = now w k0 ->
  lastActivityTime conn = now w k ->
  exists k', (k0 <= k' < ticks (run ops conn w).2)%nat /\
             lastActivityTime (run ops conn w).1 = now w k'.
Proof.
  induction ops as [|op ops IH]; intros conn w k0 k Hk Hs Hl; simpl; [eauto|].
  destruct (apply_cases op conn w) as (A1 & A2 & A3 & A4 & A5).
  rewrite <- A1.
  destruct A5 as [(L & T & _)|(L & [(_ & T & _)|(_ & T & _)])].
  - apply (IH _ _ k0 k); rewrite ?A1; try congruence; lia.
  - apply (IH _ _ k0 (ticks w)); rewrite ?A1; try congruence; lia.
  - apply (IH _ _ k0 (ticks w)); rewrite ?A1; try congruence; lia.
Qed.

Lemma created_fields c D aow entry w0 :
  let created := NewActivityMonitoredConn c D aow entry w0 in
  now created.2 = now w0 /\
  inactivityTimeout created.1 = D /\
  activeOnWrite created.1 = aow /\
  exists k, (ticks w0 <= k < ticks created.2)%nat /\
            startTime created.1 = now w0 k /\
            lastActivityTime created.1 = now w0 k /\
            (D > 0 -> k = S (ticks w0) /\
                      readDeadline created.2 = Some (now w0 (ticks w0) + D)) /\
            (D <= 0 -> readDeadline created.2 = readDeadline w0).
Proof.
  unfold NewActivityMonitoredConn.
  destruct (Z.gtb_spec D 0); simpl; repeat split; auto.
  - exists (S (ticks w0)). repeat split; auto; lia.
  - exists (ticks w0). repeat split; auto; lia.
Qed.

(** X9: with a clock that never runs backwards and whose readings are
    nanoseconds since the epoch that fit an int64, over any reads and
    writes the start time stays that of construction, and the active
    duration is the time from the start to the last activity, without
    wrap-around, and is never negative. *)
Theorem active_duration_nonneg (w0 : World) (c : Conn) (D : Z) (aow : bool)
    (entry : option LRU.LRUConnsEntry) (ops : list Op) :
  monotone (now w0) ->
  (forall k, 0 <= now w0 k <= Int64.max_int) ->
  let created := NewActivityMonitoredConn c D aow entry w0 in
  let final := run ops created.1 created.2 in
  GetStartTime final.1 = GetStartTime created.1 /\
  GetActiveDuration final.1 = lastActivityTime final.1 - startTime final.1 /\
  0 <= GetActiveDuration final.1.
Proof.
  intros Hmono Hrange created final.
  destruct (created_fields c D aow entry w0) as (N1 & _ & _ & k & Hk & Hs & Hl & _).
  fold created in N1, Hk, Hs, Hl.
  destruct (run_frame ops created.1 created.2) as (_ & _ & _ & F4 & _).
  fold final in F4. unfold GetStartTime, GetActiveDuration.
  split; [exact F4|].
  destruct (run_readings ops created.1 created.2 k k) as (k' & Hk' & Hl');
    [lia|by rewrite N1|by rewrite N1|].
  fold final in Hl', Hk'. rewrite F4, Hl', Hs, N1.
  specialize (Hmono k k').
  pose proof (Hrange k) as Rk. pose proof (Hrange k') as Rk'.
  rewrite Int64Facts.wrap_id
    by (unfold Int64.in_range, Int64.min_int, Int64.max_int in *; lia).
  split; [reflexivity|lia].
Qed.





(** X12: without a timeout (D <= 0) neither construction nor any read
    or write sets a read deadline. *)
Theorem no_timeout_no_deadline (w0 : World) (c : Conn) (D : Z) (aow : bool)
    (entry : option LRU.LRUConnsEntry) (ops : list Op) :
  D <= 0 ->
  let created := NewActivityMonitoredConn c D aow entry w0 in
  readDeadline (run ops created.1 created.2).2 = readDeadline w0.
Proof.
  intros HD created.
  destruct (created_fields c D aow entry w0)
    as (N1 & N2 & N3 & k & Hk & Hs & Hl & Hpos & Hneg).
  fold created in N2. rewrite <- (Hneg HD). fold created.
  clear N1 N3 Hk Hs Hl Hpos Hneg.
  generalize dependent (created.2). generalize dependent (created.1).
  clear created. intros conn N2 w. revert conn N2 w.
  induction ops as [|op ops IH]; intros conn N2 w; [reflexivity|].
  simpl. destruct (apply_cases op conn w) as (_ & A2 & _ & _ & A5).
  rewrite IH by congruence.
  destruct A5 as [(_ & _ & R)|(_ & [(? & _)|(_ & _ & R)])];
    [assumption|lia|assumption].
Qed.

(** X13: when writes do not count as activity, any number of writes,
    successful or not, leaves the connection's fields, the read deadline
    and the clock untouched. *)
Theorem writes_do_not_count (conn : ActivityMonitoredConn) (w : World)
    (ops : list Op) :
  activeOnWrite conn = false ->
  Forall isWrite ops ->
  (run ops conn w).1 = conn /\
  readDeadline (run ops conn w).2 = readDeadline w /\
  ticks (run ops conn w).2 = ticks w.
Proof.
  intros Haow Hops. revert w.
  induction Hops as [|op ops Hop _ IH]; intros w; [auto|].
  destruct op as [|n e]; [contradiction|]. simpl.
  assert (Hstep : (Write conn (n, e) w).1.1 = conn /\
                  readDeadline (Write conn (n, e) w).1.2 = readDeadline w /\
                  ticks (Write conn (n, e) w).1.2 = ticks w).
  { unfold Write. simpl. rewrite Haow.
    destruct e; simpl; [auto|]. destruct (lruEntry conn); simpl; auto. }
  destruct Hstep as (S1 & S2 & S3). rewrite S1.
  destruct (IH (Write conn (n, e) w).1.2) as (I1 & I2 & I3).
  repeat split; congruence.
Qed.


Lemma clock_stopping_monotone : monotone clock_stopping.
Proof. intros i j Hij. unfold clock_stopping. lia. Qed.

Lemma clock_stopping_range k : 0 <= clock_stopping k <= Int64.max_int.
Proof. unfold clock_stopping, Int64.max_int. lia. Qed.

Lemma active_duration_nonneg_witness :
  let created :=
    NewActivityMonitoredConn 1%positive timeout_200ms false None world_stopping in
  let final := run ops_write_then_read created.1 created.2 in
  GetStartTime final.1 = GetStartTime created.1 /\
  GetActiveDuration final.1 = lastActivityTime final.1 - startTime final.1 /\
  0 <= GetActiveDuration final.1.
Proof.
  apply (active_duration_nonneg world_stopping 1%positive timeout_200ms false
           None ops_write_then_read).
  - apply clock_stopping_monotone.
  - apply clock_stopping_range.
Defined.

(** On the stopping clock the connection of S1 starts at 1s and its read
    is recorded at 2s: one second of activity. *)
Example active_duration_S1 :
  GetActiveDuration
    (run ops_write_then_read
       (NewActivityMonitoredConn 1%positive timeout_200ms false None
          world_stopping).1
       (NewActivityMonitoredConn 1%positive timeout_200ms false None
          world_stopping).2).1 = 1000000000.
Proof. reflexivity. Qed.

(** Without the bound on the readings the subtraction can wrap: from a
    start long before the epoch to an activity long after it, the
    duration comes out negative. *)
Example active_duration_wraps :
  GetActiveDuration
    (mkActivityMonitoredConn 1%positive 0 false
       (-5000000000000000000) 5000000000000000000 None) < 0.
Proof. reflexivity. Qed.



Lemma no_timeout_no_deadline_witness :
  readDeadline
    (run ops_write_then_read
       (NewActivityMonitoredConn 1%positive 0 true None world_1s).1
       (NewActivityMonitoredConn 1%positive 0 true None world_1s).2).2 =
  readDeadline world_1s.
Proof.
  apply (no_timeout_no_deadline world_1s 1%positive 0 true None
           ops_write_then_read).
  lia.
Defined.

Lemma writes_do_not_count_witness :
  (run ops_writes_only conn_S1 world_S1).1 = conn_S1 /\
  readDeadline (run ops_writes_only conn_S1 world_S1).2 = readDeadline world_S1 /\
  ticks (run ops_writes_only conn_S1 world_S1).2 = ticks world_S1.
Proof.
  apply (writes_do_not_count conn_S1 world_S1 ops_writes_only).
  - reflexivity.
  - repeat constructor.
Defined.

(** Scenario S1 on the one-second clock: the write leaves the deadline
    of construction, 0s + 200ms, and the start time, 1s; the read then
    records 2s and re-arms the deadline to 3s + 200ms. *)
Example S1_write_then_read :
  readDeadline (run [OpWrite 5 None] conn_S1 world_S1).2 = Some 200000000 /\
  lastActivityTime (run [OpWrite 5 None] conn_S1 world_S1).1 = 1000000000 /\
  readDeadline (run ops_write_then_read conn_S1 world_S1).2 = Some 3200000000 /\
  lastActivityTime (run ops_write_then_read conn_S1 world_S1).1 = 2000000000.
Proof. repeat split; reflexivity. Qed.

End ActivityMore.

(** ** ThrottledConn: the unmetered budget *)

Module ThrottleMore.

Import Int64 Int64Facts Throttle ThrottleRuns ThrottleProofs.
Local Open Scope Z_scope.

(** Every returned call of a sequence ended in the stream prepared for
    its direction. *)
Lemma calls_via d conn tr conn' :
  calls conn tr conn' ->
  forall len o, (d, len, o) ∈ tr -> via o = limited d conn.
Proof.
  induction 1 as [conn|conn op conn1 o tr conn2 Hcall Hrest IH];
    intros len0 o0 Hin; [inversion Hin|].
  destruct Hcall as [d' fuel conn len conn1 o Hc].
  apply Call_frame in Hc as (F1 & F2 & F3 & _).
  apply elem_of_cons in Hin as [Heq|Hin].
  - inversion Heq; subst. exact F1.
  - rewrite (IH _ _ Hin). destruct (decide (d' = d)) as [->|Hne]; [exact F2|].
    assert (d = other d') as -> by (destruct d, d'; simpl; congruence).
    exact F3.
Qed.

(** X14: a direction configured with rate 0 keeps the wrapped
    connection as its stream, and every call in that direction ends in
    it. *)
Theorem rate_zero_stays_raw (d : Dir) (ur rr uw rw : Z)
    (tr : list (Dir * Z * Outcome)) (conn : ThrottledConn) :
  rateOf d rr rw = 0 ->
  calls (NewThrottledConn ur rr uw rw) tr conn ->
  limited d conn = Raw /\
  forall len o, (d, len, o) ∈ tr -> via o = Raw.
Proof.
  intros Hr Hcalls.
  destruct (New_fields d ur rr uw rw) as [Hnew _].
  rewrite Hr in Hnew. change (streamFor 0) with Raw in Hnew.
  split.
  - apply (calls_frame d) in Hcalls as [-> _]. exact Hnew.
  - intros len o Hin. rewrite (calls_via d _ _ _ Hcalls len o Hin). exact Hnew.
Qed.

Lemma rate_zero_stays_raw_witness :
  limited Reads (mkThrottledConn (-200) 1 Raw 1000 0 (RateLimited 100)) = Raw /\
  forall len o, (Reads, len, o) ∈ trace_unmetered -> via o = Raw.
Proof.
  apply (rate_zero_stays_raw Reads 1000 0 1000 100 trace_unmetered
           (mkThrottledConn (-200) 1 Raw 1000 0 (RateLimited 100))).
  - reflexivity.
  - eapply calls_cons; [apply (call_returns Reads 3); reflexivity|].
    eapply calls_cons; [apply (call_returns Reads 1); reflexivity|apply calls_nil].
Defined.

(** The number of subtractions a call makes from a positive counter. *)
Lemma Call_spends d len :
  1 <= len <= max_int ->
  forall (q : nat) conn,
  limiting d conn = 0 ->
  0 < unlimited d conn <= max_int ->
  (unlimited d conn - 1) / len = Z.of_nat q ->
  exists conn' o,
    Call d (S q) conn len = Some (conn', o) /\
    length (adds o) = S q /\
    last (adds o) = Some (unlimited d conn - Z.of_nat (S q) * len) /\
    unlimited d conn' = unlimited d conn - Z.of_nat (S q) * len /\
    limiting d conn' = 1.
Proof.
  intros Hlen. induction q as [|q IH]; intros conn H0 Hc Hq.
  - assert (unlimited d conn - 1 < len).
    { apply Z.div_small_iff in Hq as [Hq|Hq]; lia. }
    assert (Hn : AddInt64 (unlimited d conn) (- len) = unlimited d conn - len)
      by (apply AddInt64_sub_pos; lia).
    rewrite Call_trip by (assumption || lia). rewrite Hn.
    pose proof (tripped_fields d (unlimited d conn - len) conn)
      as (T1 & _ & T3 & _).
    do 2 eexists. split; [reflexivity|]. simpl.
    repeat split; auto; f_equal; lia.
  - assert (Hge : len <= unlimited d conn - 1).
    { destruct (Z_lt_le_dec (unlimited d conn - 1) len) as [Hlt|]; [|assumption].
      rewrite Z.div_small in Hq by lia. lia. }
    assert (Hn : AddInt64 (unlimited d conn) (- len) = unlimited d conn - len)
      by (apply AddInt64_sub_pos; lia).
    rewrite Call_retry by (assumption || lia). rewrite Hn.
    pose proof (charged_fields d (unlimited d conn - len) conn)
      as (E1 & E2 & E3 & _).
    destruct (IH (charged d (unlimited d conn - len) conn))
      as (conn' & o & Hcall & Hl & Hlast & Hun & Hflag).
    + congruence.
    + rewrite E3. lia.
    + rewrite E3.
      replace (unlimited d conn - len - 1)
        with (unlimited d conn - 1 + (-1) * len) by lia.
      rewrite Z.div_add by lia. lia.
    + rewrite Hcall. do 2 eexists. split; [reflexivity|]. simpl.
      rewrite E3 in Hlast, Hun.
      repeat split; auto.
      * destruct (adds o) as [|a l]; [discriminate|].
        rewrite last_cons_cons. rewrite Hlast. f_equal. lia.
      * rewrite Hun. lia.
Qed.

(** X15: from a counter c > 0 and with a buffer of len >= 1 bytes, a
    call subtracts len exactly ceil(c/len) times, leaves the counter in
    (-len, 0] and sets the flag. *)
Theorem budget_accounting (d : Dir) (conn : ThrottledConn) (len : Z) :
  limiting d conn = 0 ->
  0 < unlimited d conn <= max_int ->
  1 <= len <= max_int ->
  let k := (unlimited d conn + len - 1) / len in
  exists conn' o,
    Call d (Z.to_nat k) conn len = Some (conn', o) /\
    Z.of_nat (length (adds o)) = k /\
    unlimited d conn' = unlimited d conn - k * len /\
    - len < unlimited d conn' <= 0 /\
    limiting d conn' = 1.
Proof.
  intros H0 Hc Hlen k.
  set (c := unlimited d conn) in *.
  assert (Hk : k = (c - 1) / len + 1).
  { unfold k. replace (c + len - 1) with (c - 1 + 1 * len) by lia.
    rewrite Z.div_add by lia. reflexivity. }
  assert (Hq : 0 <= (c - 1) / len) by (apply Z.div_pos; lia).
  destruct (Call_spends d len Hlen (Z.to_nat ((c - 1) / len)) conn H0 Hc)
    as (conn' & o & Hcall & Hl & _ & Hun & Hflag); [fold c; lia|].
  fold c in Hun.
  replace (Z.to_nat k) with (S (Z.to_nat ((c - 1) / len))) by lia.
  exists conn', o. split; [exact Hcall|].
  replace (Z.of_nat (S (Z.to_nat ((c - 1) / len)))) with k in Hun by lia.
  repeat split; try assumption; try lia.
  - rewrite Hun.
    pose proof (Z.mul_div_le (c - 1) len ltac:(lia)).
    pose proof (Z.mul_succ_div_gt (c - 1) len ltac:(lia)).
    rewrite Hk. lia.
  - rewrite Hun.
    pose proof (Z.mul_div_le (c - 1) len ltac:(lia)).
    pose proof (Z.mul_succ_div_gt (c - 1) len ltac:(lia)).
    rewrite Hk. lia.
Qed.

Lemma budget_accounting_witness :
  let k := (unlimited Reads conn_1000_100 + 400 - 1) / 400 in
  exists conn' o,
    Call Reads (Z.to_nat k) conn_1000_100 400 = Some (conn', o) /\
    Z.of_nat (length (adds o)) = k /\
    unlimited Reads conn' = unlimited Reads conn_1000_100 - k * 400 /\
    - 400 < unlimited Reads conn' <= 0 /\
    limiting Reads conn' = 1.
Proof.
  apply (budget_accounting Reads conn_1000_100 400).
  - reflexivity.
  - unfold max_int. simpl. lia.
  - unfold max_int. lia.
Defined.

(** Over a sequence of returned calls, a direction's flag and counter
    are touched only by calls in that direction, and the first of them
    sets the flag. *)
Lemma calls_flag d conn tr conn' :
  calls conn tr conn' ->
  limiting d conn = 0 \/ limiting d conn = 1 ->
  ((exists len o, (d, len, o) ∈ tr) -> limiting d conn' = 1) /\
  ((forall len o, (d, len, o) ∉ tr) ->
   limiting d conn' = limiting d conn /\ unlimited d conn' = unlimited d conn).
Proof.
  induction 1 as [conn|conn op conn1 o tr conn2 Hcall Hrest IH]; intros Hflag.
  - split; [|auto]. intros (len & o & Hin). inversion Hin.
  - destruct Hcall as [d' fuel conn len conn1 o Hc].
    apply Call_frame in Hc as (F1 & F2 & F3 & F4 & F5 & F6 & F7).
    destruct (decide (d' = d)) as [->|Hne].
    + assert (H1 : limiting d conn1 = 1).
      { destruct Hflag as [Hz|Ho]; [auto|].
        destruct F6 as [-> _]; [lia|assumption]. }
      split.
      * intros _. apply (calls_frame d) in Hrest as [_ Hkeep].
        by destruct (Hkeep H1).
      * intros Hnone. exfalso. apply (Hnone len o), list_elem_of_here.
    + assert (d = other d') as -> by (destruct d, d'; simpl; congruence).
      destruct IH as [IH1 IH2]; [rewrite F4; exact Hflag|].
      split.
      * intros (len0 & o0 & Hin). apply IH1.
        apply elem_of_cons in Hin as [Heq|Hin]; [|eauto].
        inversion Heq; subst. destruct d'; discriminate.
      * intros Hnone. rewrite <- F4, <- F5. apply IH2.
        intros len0 o0 Hin. apply (Hnone len0 o0). by apply list_elem_of_further.
Qed.

(** X16: after a sequence of returned calls a direction's flag is 1
    exactly if a call was made in that direction; calls in the other
    direction leave its flag and counter as built. *)
Theorem limiting_iff_called (d : Dir) (ur rr uw rw : Z)
    (tr : list (Dir * Z * Outcome)) (conn : ThrottledConn) :
  calls (NewThrottledConn ur rr uw rw) tr conn ->
  (limiting d conn = 1 <-> exists len o, (d, len, o) ∈ tr) /\
  ((forall len o, (d, len, o) ∉ tr) ->
   limiting d conn = 0 /\
   unlimited d conn = unlimited d (NewThrottledConn ur rr uw rw)).
Proof.
  intros Hcalls.
  destruct (New_fields d ur rr uw rw) as [_ Hzero].
  destruct (calls_flag d _ _ _ Hcalls) as [H1 H2]; [left; exact Hzero|].
  split; [split; [|exact H1]|].
  - intros Hone.
    destruct (decide (Exists (fun x => x.1.1 = d) tr)) as [Hex|Hno].
    + apply Exists_exists in Hex as ([[d0 len] o] & Hin & Hd). simpl in Hd.
      subst d0. eauto.
    + exfalso. destruct H2 as [H2 _].
      * intros len o Hin. apply Hno, Exists_exists.
        exists (d, len, o). auto.
      * rewrite Hzero in H2. lia.
  - intros Hnone. destruct (H2 Hnone) as [-> ->]. auto.
Qed.

Lemma limiting_iff_called_witness :
  (limiting Writes conn_tripped = 1 <->
   exists len o, (Writes, len, o) ∈ trace_trip) /\
  ((forall len o, (Writes, len, o) ∉ trace_trip) ->
   limiting Writes conn_tripped = 0 /\
   unlimited Writes conn_tripped =
     unlimited Writes (NewThrottledConn 1000 100 1000 100)).
Proof.
  apply (limiting_iff_called Writes 1000 100 1000 100 trace_trip conn_tripped).
  eapply calls_cons; [apply (call_returns Reads 3); reflexivity|apply calls_nil].
Defined.

End ThrottleMore.

(** ** ResumeDownload: outcomes *)

Module DownloadMore.

Import Download DownloadRuns DownloadProofs.
Local Open Scope Z_scope.

Lemma append_neq_self (s t : string) : t ≠ ""%string -> s ≠ s +:+ t.
Proof.
  intros Ht. induction s as [|c s IH]; intros H.
  - change (""%string +:+ t) with t in H. congruence.
  - injection H as H. auto.
Qed.


Lemma target_neq_part T : T ≠ T +:+ ".part".
Proof. by apply append_neq_self. Qed.

Lemma target_neq_etag T : T ≠ T +:+ ".part.etag".
Proof. by apply append_neq_self. Qed.

Lemma Append_same name data fs :
  Append name data fs !! name = Some (default ""%string (fs !! name) +:+ data).
Proof.
  unfold Append. destruct (fs !! name) as [old|] eqn:E; simpl;
    by rewrite lookup_insert_eq.
Qed.

Lemma Append_other name other data fs :
  name ≠ other -> Append name data fs !! other = fs !! other.
Proof.
  intros H. unfold Append. destruct (fs !! name); by rewrite lookup_insert_ne.
Qed.

Lemma Rename_new old new data fs :
  fs !! old = Some data -> Rename old new fs !! new = Some data.
Proof. intros H. unfold Rename. rewrite H. apply lookup_insert_eq. Qed.

Lemma Rename_old old new data fs :
  fs !! old = Some data -> old ≠ new -> Rename old new fs !! old = None.
Proof.
  intros H Hne. unfold Rename. rewrite H.
  rewrite lookup_insert_ne by congruence. apply lookup_delete_eq.
Qed.

Lemma Rename_other old new data fs name :
  fs !! old = Some data -> name ≠ old -> name ≠ new ->
  Rename old new fs !! name = fs !! name.
Proof.
  intros H H1 H2. unfold Rename. rewrite H.
  rewrite lookup_insert_ne by congruence. by rewrite lookup_delete_ne.
Qed.

Lemma WriteFile_same env name data fs :
  WriteFile env name data fs !! name =
  if writeETagFault env then fs !! name else Some data.
Proof.
  unfold WriteFile. destruct (writeETagFault env); [reflexivity|].
  apply lookup_insert_eq.
Qed.

Lemma WriteFile_other env name other data fs :
  name ≠ other -> WriteFile env name data fs !! other = fs !! other.
Proof.
  intros H. unfold WriteFile. destruct (writeETagFault env); [reflexivity|].
  by rewrite lookup_insert_ne.
Qed.

Section WithContextError.

Variable ContextError : error -> error.

Ltac into_response :=
  unfold ResumeDownload in *;
  destruct (openFault _); [discriminate|];
  destruct (statFault _); [discriminate|];
  destruct (if Size _ _ >? 0 then _ else _) as [?|partialETag]; [discriminate|];
  destruct (newRequestFault _ _); [discriminate|];
  destruct (Do _ _) as [?|response]; [discriminate|].

Ltac same_response Hrecv resp :=
  match goal with
  | response : Response |- _ =>
    assert (response = resp) as ->
      by (clear -Hrecv; repeat case_match; simpl in Hrecv; by inversion Hrecv)
  end.

(** X17: on 412 the call fails with "partial download ETag mismatch",
    returns 0 bytes and no ETag, deletes the partial file and its ETag
    file and touches no other file. *)
Theorem precondition_failed_resets (env : Env) (fs : Files)
    (requestUrl downloadFilename ifNoneMatchETag : string) (resp : Response) :
  received (ResumeDownload ContextError env fs requestUrl downloadFilename
              ifNoneMatchETag) = Some resp ->
  StatusCode resp = 412 ->
  let r := ResumeDownload ContextError env fs requestUrl downloadFilename
             ifNoneMatchETag in
  n r = 0 /\
  responseETag r = ""%string /\
  err r = Some (ContextError "partial download ETag mismatch") /\
  files r !! (downloadFilename +:+ ".part") = None /\
  files r !! (downloadFilename +:+ ".part.etag") = None /\
  forall name,
    name ≠ downloadFilename +:+ ".part" ->
    name ≠ downloadFilename +:+ ".part.etag" ->
    files r !! name = fs !! name.
Proof.
  intros Hrecv Hst r. subst r. into_response. same_response Hrecv resp.
  rewrite Hst. simpl.
  repeat split.
  - rewrite lookup_delete_ne by apply not_eq_sym, part_neq_etag.
    apply lookup_delete_eq.
  - apply lookup_delete_eq.
  - intros name H1 H2. rewrite !lookup_delete_ne by congruence.
    by apply OpenFile_other.
Qed.

(** X18: on 304 the call succeeds with 0 bytes and the response's
    ETag, deletes the partial file and its ETag file and touches no other
    file. *)
Theorem not_modified_skips (env : Env) (fs : Files)
    (requestUrl downloadFilename ifNoneMatchETag : string) (resp : Response) :
  received (ResumeDownload ContextError env fs requestUrl downloadFilename
              ifNoneMatchETag) = Some resp ->
  StatusCode resp = 304 ->
  let r := ResumeDownload ContextError env fs requestUrl downloadFilename
             ifNoneMatchETag in
  n r = 0 /\
  responseETag r = ETag resp /\
  err r = None /\
  files r !! (downloadFilename +:+ ".part") = None /\
  files r !! (downloadFilename +:+ ".part.etag") = None /\
  forall name,
    name ≠ downloadFilename +:+ ".part" ->
    name ≠ downloadFilename +:+ ".part.etag" ->
    files r !! name = fs !! name.
Proof.
  intros Hrecv Hst r. subst r. into_response. same_response Hrecv resp.
  rewrite Hst. simpl.
  repeat split.
  - rewrite lookup_delete_ne by apply not_eq_sym, part_neq_etag.
    apply lookup_delete_eq.
  - apply lookup_delete_eq.
  - intros name H1 H2. rewrite !lookup_delete_ne by congruence.
    by apply OpenFile_other.
Qed.

(** The copy ran to the end of the body and the file was put in place. *)
Lemma copy_completed env fs url T hint resp :
  received (ResumeDownload ContextError env fs url T hint) = Some resp ->
  StatusCode resp = 206 \/ StatusCode resp = 416 ->
  BodyError resp = None ->
  closeFault env = None ->
  renameFault env = None ->
  let r := ResumeDownload ContextError env fs url T hint in
  n r = Z.of_nat (String.length (BodyData resp)) /\
  responseETag r = ETag resp /\
  err r = None /\
  files r !! T =
    Some (default ""%string (fs !! (T +:+ ".part")) +:+ BodyData resp) /\
  files r !! (T +:+ ".part") = None /\
  files r !! (T +:+ ".part.etag") = None /\
  forall name,
    name ≠ T -> name ≠ T +:+ ".part" -> name ≠ T +:+ ".part.etag" ->
    files r !! name = fs !! name.
Proof.
  intros Hrecv Hst Hbody Hclose Hrename r. subst r.
  into_response. same_response Hrecv resp.
  rewrite Hbody, Hclose, Hrename.
  pose proof (part_neq_etag T) as Hpe.
  pose proof (target_neq_part T) as Htp.
  pose proof (target_neq_etag T) as Hte.
  set (fs1 := OpenFile (T +:+ ".part") fs).
  set (fs2 := WriteFile env (T +:+ ".part.etag") (ETag resp) fs1).
  set (fs3 := Append (T +:+ ".part") (BodyData resp) fs2).
  assert (Hpart : delete T fs3 !! (T +:+ ".part") =
                  Some (default ""%string (fs !! (T +:+ ".part")) +:+ BodyData resp)).
  { rewrite lookup_delete_ne by exact Htp. unfold fs3.
    rewrite Append_same. unfold fs2.
    rewrite WriteFile_other by congruence. unfold fs1.
    by rewrite OpenFile_same. }
  destruct Hst as [Hst|Hst]; rewrite Hst; simpl; fold fs1 fs2 fs3;
    (repeat split;
     [ rewrite lookup_delete_ne by congruence; by apply Rename_new
     | rewrite lookup_delete_ne by congruence;
       eapply Rename_old; [exact Hpart|congruence]
     | apply lookup_delete_eq
     | intros name H1 H2 H3; rewrite lookup_delete_ne by congruence;
       rewrite (Rename_other _ _ _ _ name Hpart) by congruence;
       rewrite lookup_delete_ne by congruence; unfold fs3;
       rewrite Append_other by congruence; unfold fs2;
       rewrite WriteFile_other by congruence; unfold fs1;
       by apply OpenFile_other ]).
Qed.

(** The copy was cut: what was received stays in the partial file. *)
Lemma copy_interrupted env fs url T hint resp e :
  received (ResumeDownload ContextError env fs url T hint) = Some resp ->
  StatusCode resp = 206 \/ StatusCode resp = 416 ->
  BodyError resp = Some e ->
  let r := ResumeDownload ContextError env fs url T hint in
  n r = Z.of_nat (String.length (BodyData resp)) /\
  responseETag r = ""%string /\
  err r = Some (ContextError e) /\
  files r !! (T +:+ ".part") =
    Some (default ""%string (fs !! (T +:+ ".part")) +:+ BodyData resp) /\
  files r !! (T +:+ ".part.etag") =
    (if writeETagFault env then fs !! (T +:+ ".part.etag")
     else Some (ETag resp)) /\
  forall name,
    name ≠ T +:+ ".part" -> name ≠ T +:+ ".part.etag" ->
    files r !! name = fs !! name.
Proof.
  intros Hrecv Hst Hbody r. subst r.
  into_response. same_response Hrecv resp.
  rewrite Hbody.
  pose proof (part_neq_etag T) as Hpe.
  destruct Hst as [Hst|Hst]; rewrite Hst; simpl;
    (repeat split;
     [ rewrite Append_same, WriteFile_other by congruence;
       by rewrite OpenFile_same
     | rewrite Append_other, WriteFile_same by congruence;
       destruct (writeETagFault env); [|reflexivity];
       by apply OpenFile_other
     | intros name H1 H2; rewrite Append_other, WriteFile_other by congruence;
       by apply OpenFile_other ]).
Qed.

(** X19: on 206 or 416 with the body copied to its end and close and
    rename succeeding, the target holds the earlier partial bytes
    followed by the body, the partial file and its ETag file are gone, no
    other file is touched, and the call returns the body's length and the
    response's ETag. *)
Theorem completed_download (env : Env) (fs : Files)
    (requestUrl downloadFilename ifNoneMatchETag : string) (resp : Response) :
  received (ResumeDownload ContextError env fs requestUrl downloadFilename
              ifNoneMatchETag) = Some resp ->
  StatusCode resp = 206 \/ StatusCode resp = 416 ->
  BodyError resp = None ->
  closeFault env = None ->
  renameFault env = None ->
  let r := ResumeDownload ContextError env fs requestUrl downloadFilename
             ifNoneMatchETag in
  n r = Z.of_nat (String.length (BodyData resp)) /\
  responseETag r = ETag resp /\
  err r = None /\
  files r !! downloadFilename =
    Some (default ""%string (fs !! (downloadFilename +:+ ".part")) +:+
          BodyData resp) /\
  files r !! (downloadFilename +:+ ".part") = None /\
  files r !! (downloadFilename +:+ ".part.etag") = None /\
  forall name,
    name ≠ downloadFilename ->
    name ≠ downloadFilename +:+ ".part" ->
    name ≠ downloadFilename +:+ ".part.etag" ->
    files r !! name = fs !! name.
Proof. apply copy_completed. Qed.

(** X20: when the copy is cut, the call returns the number of bytes
    copied and the error; the partial file holds the earlier bytes
    followed by the bytes copied, the ETag file holds the response's ETag
    (unless writing it failed), and no other file is touched. *)
Theorem interrupted_download_keeps_partial (env : Env) (fs : Files)
    (requestUrl downloadFilename ifNoneMatchETag : string) (resp : Response)
    (e : error) :
  received (ResumeDownload ContextError env fs requestUrl downloadFilename
              ifNoneMatchETag) = Some resp ->
  StatusCode resp = 206 \/ StatusCode resp = 416 ->
  BodyError resp = Some e ->
  let r := ResumeDownload ContextError env fs requestUrl downloadFilename
             ifNoneMatchETag in
  n r = Z.of_nat (String.length (BodyData resp)) /\
  responseETag r = ""%string /\
  err r = Some (ContextError e) /\
  files r !! (downloadFilename +:+ ".part") =
    Some (default ""%string (fs !! (downloadFilename +:+ ".part")) +:+
          BodyData resp) /\
  files r !! (downloadFilename +:+ ".part.etag") =
    (if writeETagFault env then fs !! (downloadFilename +:+ ".part.etag")
     else Some (ETag resp)) /\
  forall name,
    name ≠ downloadFilename +:+ ".part" ->
    name ≠ downloadFilename +:+ ".part.etag" ->
    files r !! name = fs !! name.
Proof. apply copy_interrupted. Qed.

Lemma ReadFile_OpenFile env name other fs :
  name ≠ other -> ReadFile env other (OpenFile name fs) = ReadFile env other fs.
Proof. intros H. unfold ReadFile. by rewrite OpenFile_other. Qed.



(** X22: when there are partial bytes but their ETag cannot be read,
    no request is made; the call fails, and the partial file and its ETag
    file are deleted. *)
Theorem unreadable_etag_resets (env : Env) (fs : Files)
    (requestUrl downloadFilename ifNoneMatchETag : string) (e : error) :
  openFault env = None ->
  statFault env = None ->
  0 < Size (downloadFilename +:+ ".part") fs ->
  ReadFile env (downloadFilename +:+ ".part.etag") fs = inl e ->
  let r := ResumeDownload ContextError env fs requestUrl downloadFilename
             ifNoneMatchETag in
  sent r = None /\
  n r = 0 /\
  responseETag r = ""%string /\
  err r = Some (ContextError ("failed to load partial download ETag: " +:+ e)) /\
  files r !! (downloadFilename +:+ ".part") = None /\
  files r !! (downloadFilename +:+ ".part.etag") = None /\
  forall name,
    name ≠ downloadFilename +:+ ".part" ->
    name ≠ downloadFilename +:+ ".part.etag" ->
    files r !! name = fs !! name.
Proof.
  intros Hopen Hstat Hsize Hread r. subst r. unfold ResumeDownload.
  rewrite Hopen, Hstat, Size_OpenFile.
  apply Z.gtb_lt in Hsize. rewrite Hsize.
  rewrite ReadFile_OpenFile, Hread by apply part_neq_etag. simpl.
  repeat split.
  - rewrite lookup_delete_ne by apply not_eq_sym, part_neq_etag.
    apply lookup_delete_eq.
  - apply lookup_delete_eq.
  - intros name H1 H2. rewrite !lookup_delete_ne by congruence.
    by apply OpenFile_other.
Qed.

(** X23: a call that returns an error leaves the target file as it
    was, unless the error is that of the final rename. *)
Theorem target_survives_failure (env : Env) (fs : Files)
    (requestUrl downloadFilename ifNoneMatchETag : string) :
  err (ResumeDownload ContextError env fs requestUrl downloadFilename
         ifNoneMatchETag) ≠ None ->
  renameFault env = None ->
  files (ResumeDownload ContextError env fs requestUrl downloadFilename
           ifNoneMatchETag) !! downloadFilename = fs !! downloadFilename.
Proof.
  intros Herr Hrename.
  pose proof (target_neq_part downloadFilename) as Htp.
  pose proof (target_neq_etag downloadFilename) as Hte.
  unfold ResumeDownload in *. rewrite Hrename in *.
  repeat case_match; simpl in *; try congruence;
    repeat first
      [ rewrite lookup_delete_ne by congruence
      | rewrite Append_other by congruence
      | rewrite WriteFile_other by congruence
      | rewrite OpenFile_other by congruence ];
    reflexivity.
Qed.

End WithContextError.

Lemma precondition_failed_resets_witness :
  let r := ResumeDownload ContextError_id (env_answering response_412)
             files_partial "https://example.org/upgrade" "upgrade" "" in
  n r = 0 /\
  responseETag r = ""%string /\
  err r = Some (ContextError_id "partial download ETag mismatch") /\
  files r !! ("upgrade" +:+ ".part") = None /\
  files r !! ("upgrade" +:+ ".part.etag") = None /\
  forall name,
    name ≠ "upgrade" +:+ ".part" ->
    name ≠ "upgrade" +:+ ".part.etag" ->
    files r !! name = files_partial !! name.
Proof.
  apply (precondition_failed_resets ContextError_id (env_answering response_412)
           files_partial "https://example.org/upgrade" "upgrade" "" response_412);
    reflexivity.
Defined.

Lemma not_modified_skips_witness :
  let r := ResumeDownload ContextError_id (env_answering response_304)
             ∅ "https://example.org/upgrade" "upgrade" "v1" in
  n r = 0 /\
  responseETag r = ETag response_304 /\
  err r = None /\
  files r !! ("upgrade" +:+ ".part") = None /\
  files r !! ("upgrade" +:+ ".part.etag") = None /\
  forall name,
    name ≠ "upgrade" +:+ ".part" ->
    name ≠ "upgrade" +:+ ".part.etag" ->
    files r !! name = (∅ : Files) !! name.
Proof.
  apply (not_modified_skips ContextError_id (env_answering response_304)
           ∅ "https://example.org/upgrade" "upgrade" "v1" response_304);
    reflexivity.
Defined.

Lemma completed_download_witness :
  let r := ResumeDownload ContextError_id env_206 files_partial
             "https://example.org/upgrade" "upgrade" "" in
  n r = Z.of_nat (String.length (BodyData response_206)) /\
  responseETag r = ETag response_206 /\
  err r = None /\
  files r !! "upgrade"%string =
    Some (default ""%string (files_partial !! ("upgrade" +:+ ".part")) +:+
          BodyData response_206) /\
  files r !! ("upgrade" +:+ ".part") = None /\
  files r !! ("upgrade" +:+ ".part.etag") = None /\
  forall name,
    name ≠ "upgrade"%string ->
    name ≠ "upgrade" +:+ ".part" ->
    name ≠ "upgrade" +:+ ".part.etag" ->
    files r !! name = files_partial !! name.
Proof.
  apply (completed_download ContextError_id env_206 files_partial
           "https://example.org/upgrade" "upgrade" "" response_206);
    first [reflexivity | by left].
Defined.

Lemma interrupted_download_keeps_partial_witness :
  let r := ResumeDownload ContextError_id (env_answering response_cut) ∅
             "https://example.org/upgrade" "upgrade" "" in
  n r = Z.of_nat (String.length (BodyData response_cut)) /\
  responseETag r = ""%string /\
  err r = Some (ContextError_id "connection reset by peer") /\
  files r !! ("upgrade" +:+ ".part") =
    Some (default ""%string ((∅ : Files) !! ("upgrade" +:+ ".part")) +:+
          BodyData response_cut) /\
  files r !! ("upgrade" +:+ ".part.etag") =
    (if writeETagFault (env_answering response_cut)
     then (∅ : Files) !! ("upgrade" +:+ ".part.etag")
     else Some (ETag response_cut)) /\
  forall name,
    name ≠ "upgrade" +:+ ".part" ->
    name ≠ "upgrade" +:+ ".part.etag" ->
    files r !! name = (∅ : Files) !! name.
Proof.
  apply (interrupted_download_keeps_partial ContextError_id
           (env_answering response_cut) ∅
           "https://example.org/upgrade" "upgrade" "" response_cut
           "connection reset by peer");
    first [reflexivity | by left].
Defined.


Lemma unreadable_etag_resets_witness :
  let r := ResumeDownload ContextError_id env_206 files_no_etag
             "https://example.org/upgrade" "upgrade" "" in
  sent r = None /\
  n r = 0 /\
  responseETag r = ""%string /\
  err r = Some (ContextError_id
                  ("failed to load partial download ETag: " +:+
                   ("open " +:+ ("upgrade" +:+ ".part.etag") +:+
                    ": no such file or directory"))) /\
  files r !! ("upgrade" +:+ ".part") = None /\
  files r !! ("upgrade" +:+ ".part.etag") = None /\
  forall name,
    name ≠ "upgrade" +:+ ".part" ->
    name ≠ "upgrade" +:+ ".part.etag" ->
    files r !! name = files_no_etag !! name.
Proof.
  apply (unreadable_etag_resets ContextError_id env_206 files_no_etag
           "https://example.org/upgrade" "upgrade" "");
    first [reflexivity | (vm_compute; reflexivity)].
Defined.

Lemma target_survives_failure_witness :
  files (ResumeDownload ContextError_id (env_answering response_cut)
           {[ "upgrade"%string := "old"%string ]}
           "https://example.org/upgrade" "upgrade" "") !! "upgrade"%string =
  ({[ "upgrade"%string := "old"%string ]} : Files) !! "upgrade"%string.
Proof.
  apply (target_survives_failure ContextError_id (env_answering response_cut)
           {[ "upgrade"%string := "old"%string ]}
           "https://example.org/upgrade" "upgrade" "").
  - vm_compute. discriminate.
  - reflexivity.
Defined.

End DownloadMore.

(** ** RunServices: order of events *)

Module SupervisorMore.

Import Supervisor SupervisorOrder SupervisorProofs.
Local Open Scope Z_scope.

Lemma orderly_init : orderly init.
Proof. unfold orderly. simpl. repeat split; auto. discriminate. Qed.

Ltac order_crush :=
  repeat case_match; simplify_eq; simpl in *;
  intuition (subst; simpl in *; try congruence).

Lemma orderly_step cfg ev s s' :
  orderly s -> step cfg ev s = Some s' -> orderly s'.
Proof.
  unfold orderly, deliveredPosts.
  destruct s as [m e w t mo wg sb er pe po]. simpl.
  intros (Hsb & Her & Hmo & Hpost) Hstep. subst er.
  destruct ev as [|c|wk we|wk|wk| | |sig]; simpl in Hstep.
  - unfold stepMain in Hstep. simpl in Hstep.
    destruct m, cfg as [[] []]; simpl in *; order_crush.
  - unfold stepTake in Hstep. simpl in Hstep.
    destruct m; try discriminate.
    destruct c as [[]|]; simpl in *; order_crush.
  - destruct wk; simpl in *; destruct m; order_crush.
  - unfold stepPost in Hstep.
    destruct wk; simpl in Hstep;
      [destruct w as [| |we| |]|destruct t as [| |we| |]]; try discriminate;
      simpl in Hstep;
      destruct m; simpl in Hstep; simplify_eq; simpl;
      rewrite filter_app; simpl;
      rewrite ?filter_cons_True, ?filter_cons_False, ?filter_nil by (simpl; congruence);
      rewrite ?app_nil_r;
      destruct (filter _ po) as [|p1 [|p2 ps]]; simpl in *;
      intuition (subst; simpl in *; try congruence).
  - destruct wk; simpl in *; destruct m; order_crush.
  - unfold stepMonitor in Hstep. simpl in Hstep.
    destruct mo; try discriminate; destruct m; order_crush.
  - destruct mo; try discriminate; destruct m; order_crush.
  - unfold stepDeliver in Hstep. simpl in Hstep.
    destruct m, sig; order_crush.
Qed.

Lemma orderly_run cfg evs : forall s s',
  orderly s -> run cfg evs s = Some s' -> orderly s'.
Proof.
  induction evs as [|ev evs IH]; intros s s' Hs Hrun; simpl in Hrun.
  - congruence.
  - destruct (step cfg ev s) as [s1|] eqn:Hstep; [|discriminate].
    eauto using orderly_step.
Qed.

(** X24: whenever RunServices has returned, the wait group is at 0,
    shutdownBroadcast is closed, the tunnel server goroutine has exited
    and the web server goroutine, if it was started, has too. *)
Theorem workers_joined_on_return (cfg : Config) (evs : list Event) (s : State) :
  run cfg evs init = Some s ->
  main s = MReturned ->
  tunnel s = WExited /\
  (web s = WExited \/ web s = WNotSpawned) /\
  waitGroup s = 0 /\
  shutdownBroadcast s = true.
Proof.
  intros Hrun Hret.
  pose proof (counted_run cfg evs init s counted_init Hrun) as (Hwg & Hph & H0).
  pose proof (orderly_run cfg evs init s orderly_init Hrun) as (Hsb & _).
  specialize (H0 Hret). unfold spawnPhase in Hph. rewrite Hret in Hph, Hsb.
  rewrite H0 in Hwg. unfold liveCount, startingCount in Hwg.
  repeat split; try assumption;
    destruct (tunnel s), (web s), (monitor s); simpl in Hwg;
    try lia; try congruence; auto.
Qed.

Lemma workers_joined_on_return_witness :
  tunnel state_after_failure = WExited /\
  (web state_after_failure = WExited \/ web state_after_failure = WNotSpawned) /\
  waitGroup state_after_failure = 0 /\
  shutdownBroadcast state_after_failure = true.
Proof.
  apply (workers_joined_on_return cfg_tunnel_only schedule_failure_while_parked
           state_after_failure); reflexivity.
Defined.

(** X25: in every run at most one post on the errors channel is
    received; err is nil until then and holds the posted value after,
    and the loop has been left. *)
Theorem err_is_the_delivered_post (cfg : Config) (evs : list Event) (s : State) :
  run cfg evs init = Some s ->
  (deliveredPosts s = [] /\ err s = None) \/
  (exists p, deliveredPosts s = [p] /\ err s = posted p /\
             loopExited (main s) = true).
Proof.
  intros Hrun.
  pose proof (orderly_run cfg evs init s orderly_init Hrun) as (_ & _ & _ & H).
  destruct (deliveredPosts s) as [|p [|q l]]; [left|right|contradiction]; eauto.
Qed.

Lemma err_is_the_delivered_post_witness :
  (deliveredPosts state_after_failure = [] /\ err state_after_failure = None) \/
  (exists p, deliveredPosts state_after_failure = [p] /\
             err state_after_failure = posted p /\
             loopExited (main state_after_failure) = true).
Proof.
  apply (err_is_the_delivered_post cfg_tunnel_only schedule_failure_while_parked
           state_after_failure).
  reflexivity.
Defined.

(** X26: in every run shutdownBroadcast is closed exactly when the
    loop has been left and line 142 has run; the load monitor exits only
    after that; nothing is ever buffered in the errors channel; and the
    wait group counter stays between 0 and 3. *)
Theorem broadcast_closed_once_loop_exited (cfg : Config) (evs : list Event)
    (s : State) :
  run cfg evs init = Some s ->
  shutdownBroadcast s = broadcastDone (main s) /\
  (monitor s = LExited -> main s = MWait \/ main s = MReturned) /\
  errors s = [] /\
  0 <= waitGroup s <= 3.
Proof.
  intros Hrun.
  pose proof (counted_run cfg evs init s counted_init Hrun) as (Hwg & _ & _).
  pose proof (orderly_run cfg evs init s orderly_init Hrun) as (Hsb & Her & Hmo & _).
  repeat split; try assumption.
  - intros Hex. specialize (Hmo Hex). rewrite Hsb in Hmo.
    destruct (main s); try discriminate; auto.
  - rewrite Hwg. unfold liveCount, startingCount.
    destruct (workerLive (web s)), (workerLive (tunnel s)), (monitor s); lia.
  - rewrite Hwg. unfold liveCount, startingCount.
    destruct (workerLive (web s)), (workerLive (tunnel s)), (monitor s); lia.
Qed.

Lemma broadcast_closed_once_loop_exited_witness :
  shutdownBroadcast state_after_interrupt =
    broadcastDone (main state_after_interrupt) /\
  (monitor state_after_interrupt = LExited ->
   main state_after_interrupt = MWait \/ main state_after_interrupt = MReturned) /\
  errors state_after_interrupt = [] /\
  0 <= waitGroup state_after_interrupt <= 3.
Proof.
  apply (broadcast_closed_once_loop_exited cfg_with_monitor
           schedule_interrupt_with_monitor state_after_interrupt).
  reflexivity.
Defined.

End SupervisorMore.

(** ** WaitForNetworkConnectivity *)

Module ConnectivityProofs.

Import Connectivity.
Local Open Scope Z_scope.

(** What the loop's answer says about the iterations before it. *)
Lemma waitLoop_sound has sel : forall fuel i b,
  waitLoop fuel has sel i = Some b ->
  exists n, (i <= n)%nat /\
    (forall j, (i <= j < n)%nat -> isTick (sel j) = true /\ has (S j) ≠ 1) /\
    if b then has (S n) = 1
    else has (S n) ≠ 1 /\ isTick (sel n) = false.
Proof.
  induction fuel as [|fuel IH]; intros i b H; [discriminate|].
  simpl in H. destruct (Z.eqb_spec (has (S i)) 1) as [H1|H1].
  - inversion H; subst. exists i. split; [lia|]. split; [|assumption].
    intros j Hj. lia.
  - destruct (isTick (sel i)) eqn:Ht.
    + apply IH in H as (n & Hn & Hbefore & Hend).
      exists n. split; [lia|]. split; [|assumption].
      intros j Hj. destruct (decide (j = i)) as [->|Hne]; [auto|].
      apply Hbefore. lia.
    + inversion H; subst. exists i. split; [lia|]. split; [|by split].
      intros j Hj. lia.
Qed.

(** X27: an answer of WaitForNetworkConnectivity is justified: true
    means some call of the checker returned 1, the first to do so, with
    only ticks before it; false means a select chose something other
    than a tick, the first to do so, and no call of the checker up to
    then returned 1. *)
Theorem wait_answer_is_justified (fuel : nat) (has : nat -> Z)
    (sel : nat -> Selected) (b : bool) :
  WaitForNetworkConnectivity fuel (Some has) sel = Some b ->
  if b
  then exists k, has k = 1 /\
         (forall j, (j < k)%nat -> has j ≠ 1) /\
         (forall i, (S i < k)%nat -> isTick (sel i) = true)
  else exists n, isTick (sel n) = false /\
         (forall i, (i < n)%nat -> isTick (sel i) = true) /\
         (forall j, (j <= S n)%nat -> has j ≠ 1).
Proof.
  unfold WaitForNetworkConnectivity.
  destruct (Z.eqb_spec (has 0%nat) 1) as [H0|H0]; intros H.
  - inversion H; subst. exists 0%nat. split; [assumption|]. split; intros; lia.
  - apply waitLoop_sound in H as (n & _ & Hbefore & Hend).
    destruct b.
    + exists (S n). split; [assumption|]. split.
      * intros j Hj. destruct j as [|j]; [assumption|].
        apply (Hbefore j). lia.
      * intros i Hi. apply (Hbefore i). lia.
    + destruct Hend as [Hn Ht]. exists n. split; [assumption|]. split.
      * intros i Hi. apply (Hbefore i). lia.
      * intros j Hj. destruct j as [|j]; [assumption|].
        destruct (decide (j = n)) as [->|Hne]; [assumption|].
        apply (Hbefore j). lia.
Qed.

Lemma wait_answer_is_justified_witness :
  exists k, has_from_3 k = 1 /\
    (forall j, (j < k)%nat -> has_from_3 j ≠ 1) /\
    (forall i, (S i < k)%nat -> isTick (always_tick i) = true).
Proof.
  apply (wait_answer_is_justified 5 has_from_3 always_tick true).
  reflexivity.
Defined.

(** After [n] ticks without connectivity the loop stands at its
    [n]-th iteration. *)
Lemma waitLoop_ticks has sel n : forall fuel i,
  (forall j, (i <= j < i + n)%nat -> isTick (sel j) = true /\ has (S j) ≠ 1) ->
  waitLoop (n + fuel) has sel i = waitLoop fuel has sel (i + n).
Proof.
  induction n as [|n IH]; intros fuel i H.
  - by rewrite Nat.add_0_r.
  - simpl. destruct (H i) as [Ht Hh]; [lia|].
    destruct (Z.eqb_spec (has (S i)) 1); [contradiction|]. rewrite Ht.
    rewrite IH; [f_equal; lia|]. intros j Hj. apply H. lia.
Qed.

(** X28: after n ticks without connectivity the next iteration
    decides: if the checker now returns 1 the answer is true, even when
    a stop is pending; otherwise, if the select is not a tick, the answer
    is false. *)
Theorem wait_answers_after_ticks (has : nat -> Z) (sel : nat -> Selected)
    (n fuel : nat) :
  (forall j, (j <= n)%nat -> has j ≠ 1) ->
  (forall i, (i < n)%nat -> isTick (sel i) = true) ->
  (has (S n) = 1 ->
   WaitForNetworkConnectivity (S n + fuel) (Some has) sel = Some true) /\
  (has (S n) ≠ 1 -> isTick (sel n) = false ->
   WaitForNetworkConnectivity (S n + fuel) (Some has) sel = Some false).
Proof.
  intros Hhas Hticks. unfold WaitForNetworkConnectivity.
  destruct (Z.eqb_spec (has 0%nat) 1) as [H0|_]; [by apply Hhas in H0; [|lia]|].
  replace (S n + fuel)%nat with (n + S fuel)%nat by lia.
  rewrite waitLoop_ticks.
  - simpl. split.
    + intros H1. by rewrite H1.
    + intros H1 Ht. destruct (Z.eqb_spec (has (S n)) 1); [contradiction|].
      by rewrite Ht.
  - intros j Hj. split; [apply Hticks; lia|apply Hhas; lia].
Qed.

Lemma wait_answers_after_ticks_witness :
  (has_never 3%nat = 1 ->
   WaitForNetworkConnectivity (3 + 0) (Some has_never) stop_at_2 = Some true) /\
  (has_never 3%nat ≠ 1 -> isTick (stop_at_2 2) = false ->
   WaitForNetworkConnectivity (3 + 0) (Some has_never) stop_at_2 = Some false).
Proof.
  apply (wait_answers_after_ticks has_never stop_at_2 2 0).
  - intros j _. unfold has_never. lia.
  - intros i Hi. destruct i as [|[|i]]; [reflexivity|reflexivity|lia].
Defined.

Example wait_sees_connectivity :
  WaitForNetworkConnectivity 2 (Some has_from_3) always_tick = None /\
  WaitForNetworkConnectivity 3 (Some has_from_3) always_tick = Some true /\
  WaitForNetworkConnectivity 3 (Some has_from_3) stop_at_2 = Some true /\
  WaitForNetworkConnectivity 3 (Some has_never) stop_at_2 = Some false /\
  WaitForNetworkConnectivity 0 None stop_at_2 = Some true.
Proof. repeat split; reflexivity. Qed.

End ConnectivityProofs.

(** ** ResolveIP *)

Module DNSProofs.

Import Int64 Int64Facts DNS.
Local Open Scope Z_scope.

Lemma ttlDuration_exact ttl :
  0 <= ttl < 2 ^ 32 -> ttlDuration ttl = ttl * Second /\ 0 <= ttlDuration ttl <= max_int.
Proof.
  intros H. unfold ttlDuration.
  assert (Hr : in_range (ttl * Second)).
  { unfold in_range, min_int, max_int, Second. lia. }
  rewrite (wrap_id _ Hr). split; [reflexivity|].
  unfold in_range, min_int, Second in *. lia.
Qed.

Lemma collect_spec answers : forall addrs ttls,
  (collect answers addrs ttls).1 = addrs ++ (aRecords answers).*1 /\
  (collect answers addrs ttls).2 =
    ttls ++ (ttlDuration <$> (aRecords answers).*2).
Proof.
  induction answers as [|[a ttl|ttl] rest IH]; intros addrs ttls; simpl.
  - by rewrite !app_nil_r.
  - destruct (IH (addrs ++ [a]) (ttls ++ [ttlDuration ttl])) as [-> ->].
    by rewrite <- !app_assoc.
  - apply IH.
Qed.

Section WithContextError.

Variable ContextError : error -> error.

(** X29: on a response, ResolveIP returns the addresses of the A
    records in order and, in step with them, their TTLs in nanoseconds,
    none of which overflows; other records are ignored. *)
Theorem ResolveIP_pairs (answers : list RR) :
  Forall (fun r => 0 <= ttlOf r < 2 ^ 32) answers ->
  let '(addrs, ttls, err) := ResolveIP ContextError (inr answers) in
  err = None /\
  addrs = (aRecords answers).*1 /\
  ttls = (fun ttl => ttl * Second) <$> (aRecords answers).*2 /\
  length addrs = length ttls /\
  Forall (fun d => 0 <= d <= max_int) ttls.
Proof.
  intros Hrange. unfold ResolveIP.
  destruct (collect answers [] []) as [addrs ttls] eqn:Hc.
  destruct (collect_spec answers [] []) as [H1 H2]. rewrite Hc in H1, H2.
  simpl in H1, H2. subst addrs ttls.
  assert (Hin : Forall (fun ttl => 0 <= ttl < 2 ^ 32) (aRecords answers).*2).
  { clear Hc. induction Hrange as [|r rest Hr _ IH]; [constructor|].
    destruct r as [a ttl|ttl]; simpl; [|assumption].
    constructor; assumption. }
  assert (Heq : ttlDuration <$> (aRecords answers).*2 =
                (fun ttl => ttl * Second) <$> (aRecords answers).*2).
  { apply Forall_fmap_ext_1. eapply Forall_impl; [exact Hin|].
    intros ttl Httl. by apply ttlDuration_exact. }
  repeat split.
  - exact Heq.
  - by rewrite !length_fmap.
  - rewrite Forall_fmap. eapply Forall_impl; [exact Hin|].
    intros ttl Httl. simpl. by apply ttlDuration_exact.
Qed.

End WithContextError.

Lemma ResolveIP_pairs_witness :
  let '(addrs, ttls, err) := ResolveIP (fun e => e) (inr answers_example) in
  err = None /\
  addrs = (aRecords answers_example).*1 /\
  ttls = (fun ttl => ttl * Second) <$> (aRecords answers_example).*2 /\
  length addrs = length ttls /\
  Forall (fun d => 0 <= d <= max_int) ttls.
Proof.
  apply (ResolveIP_pairs (fun e => e) answers_example).
  unfold answers_example. repeat constructor; simpl; lia.
Defined.

Example ResolveIP_example :
  ResolveIP (fun e => e) (inr answers_example) =
  ([[93; 184; 216; 34]; [10; 0; 0; 1]], [300000000000; 4294967295000000000], None).
Proof. reflexivity. Qed.

Example ResolveIP_error :
  ResolveIP (fun e => e) (inl "i/o timeout"%string) = ([], [], Some "i/o timeout"%string).
Proof. reflexivity. Qed.

End DNSProofs.
